(** * transmittr: the PLS playlist parser ([app/utils/parsers/pls.js])

    A shallow embedding of [plsParser] and of the JavaScript string and
    object operations it is written with, followed by the properties of
    the parser.

    Strings are modelled as [string] (sequences of 8-bit characters); the
    parser only ever inspects the ASCII characters newline, [=], the decimal
    digits and the letters of its keywords. *)

From Stdlib Require Import ZArith Ascii String List Lia.
From stdpp Require Import base option list gmap strings.

(** ** JavaScript string primitives *)

Module JsString.
Local Open Scope Z_scope.

(** [s.length] *)
Definition length (s : string) : Z := Z.of_nat (String.length s).

(** [s.indexOf(c)] for a one-character needle: the first position of
    [c], or [-1] when [c] does not occur. *)
Fixpoint indexOf (c : ascii) (s : string) : Z :=
  match s with
  | EmptyString => -1
  | String a s' =>
      if Ascii.eqb a c then 0
      else let i := indexOf c s' in if i <? 0 then -1 else i + 1
  end.

(** [s.search(/C/)] for a one-character class [C]: the first position of
    a character in the class, or [-1]. *)
Fixpoint search (cls : ascii -> bool) (s : string) : Z :=
  match s with
  | EmptyString => -1
  | String a s' =>
      if cls a then 0
      else let i := search cls s' in if i <? 0 then -1 else i + 1
  end.

Fixpoint take (n : nat) (s : string) : string :=
  match n, s with
  | S n', String a s' => String a (take n' s')
  | _, _ => EmptyString
  end.

Fixpoint drop (n : nat) (s : string) : string :=
  match n, s with
  | S n', String _ s' => drop n' s'
  | _, _ => s
  end.

(** The characters at positions [from <= i < to]; empty when [to <= from]. *)
Definition between (s : string) (from to : Z) : string :=
  take (Z.to_nat (to - from)) (drop (Z.to_nat from) s).

(** How [slice] reads an index: a negative one counts from the end. *)
Definition relative (s : string) (i : Z) : Z :=
  if i <? 0 then Z.max (length s + i) 0 else Z.min i (length s).

(** [s.slice(start, end)] *)
Definition slice (s : string) (start end_ : Z) : string :=
  between s (relative s start) (relative s end_).

(** [s.slice(start)] *)
Definition slice_from (s : string) (start : Z) : string :=
  slice s start (length s).

(** How [substring] reads an index: clamped to [0 .. s.length]. *)
Definition clamp (s : string) (i : Z) : Z := Z.min (Z.max i 0) (length s).

(** [s.substring(a, b)]: the two clamped indices are swapped when
    [a > b]. *)
Definition substring (s : string) (a b : Z) : string :=
  between s (Z.min (clamp s a) (clamp s b)) (Z.max (clamp s a) (clamp s b)).

(** [s.substring(a)] *)
Definition substring_from (s : string) (a : Z) : string :=
  substring s a (length s).

(** [s.startsWith(p)] *)
Fixpoint startsWith (p s : string) : bool :=
  match p, s with
  | EmptyString, _ => true
  | String a p', String b s' => Ascii.eqb a b && startsWith p' s'
  | String _ _, EmptyString => false
  end.

(** [s.split(sep)] for a one-character separator (also [s.split(/\n/)]):
    the pieces between the separators, never an empty array. *)
Fixpoint split (sep : ascii) (s : string) : list string :=
  match s with
  | EmptyString => [EmptyString]
  | String a s' =>
      if Ascii.eqb a sep then EmptyString :: split sep s'
      else match split sep s' with
           | piece :: pieces => String a piece :: pieces
           | [] => [String a EmptyString]
           end
  end.

(** The character class [\d]. *)
Definition is_digit (c : ascii) : bool :=
  match Ascii.is_nat c with Some _ => true | None => false end.

(** [[A-Z]] and [[a-z]]. *)
Definition is_upper (c : ascii) : bool :=
  (65 <=? Z.of_nat (nat_of_ascii c)) && (Z.of_nat (nat_of_ascii c) <=? 90).
Definition is_lower (c : ascii) : bool :=
  (97 <=? Z.of_nat (nat_of_ascii c)) && (Z.of_nat (nat_of_ascii c) <=? 122).

Definition toUpperCase (c : ascii) : ascii :=
  if is_lower c then ascii_of_nat (nat_of_ascii c - 32) else c.
Definition toLowerCase (c : ascii) : ascii :=
  if is_upper c then ascii_of_nat (nat_of_ascii c + 32) else c.

(** Joins lines with newlines, [lines.join('\n')]; used to write
    documents down. *)
Fixpoint join_lines (ls : list string) : string :=
  match ls with
  | [] => EmptyString
  | [l] => l
  | l :: ls' => l +:+ String "010" (join_lines ls')
  end.
End JsString.

(** ** Arrays *)

Module JsArray.
(** [arr.unshift(...items)]: puts [items] in front of the array and
    returns the new length. *)
Definition unshift {A} (items arr : list A) : list A * nat :=
  (items ++ arr, length (items ++ arr)).

(** [arr.push(x)]: appends and returns the new length. *)
Definition push {A} (x : A) (arr : list A) : list A * nat :=
  (arr ++ [x], length (arr ++ [x])).
End JsArray.

(** ** Ember's [String.camelize]

    The parser imports [camelize] from Ember; it is modelled here after
    Ember's implementation,
    [str.replace(/(\-|\_|\.|\s)+(.)?/g, (m, sep, chr) => chr ? chr.toUpperCase() : '')
        .replace(/(^|\/)([A-Z])/g, m => m.toLowerCase())]. *)

Module Ember.
Import JsString.

Definition is_separator (c : ascii) : bool :=
  Ascii.eqb c "-" || Ascii.eqb c "_" || Ascii.eqb c "." || Ascii.is_space c.

(** First replacement: every run of separators is removed and the
    character after it is put in upper case. *)
Fixpoint join_words (after_separator : bool) (s : string) : string :=
  match s with
  | EmptyString => EmptyString
  | String c s' =>
      if is_separator c then join_words true s'
      else String (if after_separator then toUpperCase c else c)
                  (join_words false s')
  end.

(** Second replacement: a capital at the start or after a [/] is put in
    lower case. *)
Fixpoint lower_heads (at_head : bool) (s : string) : string :=
  match s with
  | EmptyString => EmptyString
  | String c s' =>
      String (if at_head then toLowerCase c else c)
             (lower_heads (Ascii.eqb c "/") s')
  end.

Definition camelize (s : string) : string :=
  lower_heads true (join_words false s).
End Ember.

(** ** Values, objects and completions *)

(** The primitive values the parser stores in its result. *)
Inductive value :=
| VUndefined
| VNum (n : Z)
| VStr (s : string).

(** A call either completes normally or throws. *)
Inductive exn := TypeError.

Inductive completion (A : Type) :=
| Normal (a : A)
| Throw (e : exn).
Arguments Normal {A} a.
Arguments Throw {A} e.

Definition bind {A B} (c : completion A) (k : A → completion B) : completion B :=
  match c with
  | Normal a => k a
  | Throw e => Throw e
  end.

Definition map_completion {A B} (f : A → B) (c : completion A) : completion B :=
  bind c (λ a, Normal (f a)).

Module JsObject.
(** The property names every object literal inherits from
    [Object.prototype]. *)
Definition object_prototype_keys : list string :=
  [ "constructor"; "hasOwnProperty"; "isPrototypeOf"; "propertyIsEnumerable";
    "toLocaleString"; "toString"; "valueOf"; "__proto__";
    "__defineGetter__"; "__defineSetter__"; "__lookupGetter__";
    "__lookupSetter__" ].

(** What [obj[k]] finds in an object created by [{}] whose own
    properties are [own]. *)
Inductive slot (A : Type) :=
| Missing
| Own (a : A)
| Inherited.
Arguments Missing {A}.
Arguments Own {A} a.
Arguments Inherited {A}.

Definition get {A} (own : gmap string A) (k : string) : slot A :=
  match own !! k with
  | Some a => Own a
  | None =>
      if bool_decide (k ∈ object_prototype_keys) then Inherited else Missing
  end.

(** [obj[k] = a] for a primitive [a]: an own property is written, except
    that the accessor [__proto__] ignores primitives. *)
Definition set {A} (k : string) (a : A) (own : gmap string A) : gmap string A :=
  if bool_decide (k = "__proto__") then own else <[k := a]> own.
End JsObject.

(** ** The parser *)

(** A track is a plain object; the parser writes its properties by
    computed name. *)
Abbreviation Track := (gmap string value).

(** The object [plsParser] returns.  The source spells the entry-count
    property [numberofentries]. *)
Record Pls := {
  numberofentries : value;
  playlistType : string;
  tracks : list Track;
  version : value
}.

(** The variables the [forEach] callback closes over. *)
Record State := {
  pls : Pls;
  createdTracks : gmap string nat
}.

(** One call of [Ember.Logger.error]: its two arguments. *)
Record LogCall := {
  message : string;
  received : string
}.

(** What a call of the parser does: what it returns (or throws) and what it
    logs. *)
Record Outcome := {
  returned : completion Pls;
  logged : list LogCall
}.

Definition PLAYLIST_TYPE : string := "pls".
Definition NUMBER_OF_ENTRIES : string := "Numberofentries".
Definition VERSION : string := "Version".

(** [new RegExp(p + '$').test(s)] for a pattern [p] of plain characters:
    some position of [s] is followed by exactly [p] and then the end of the
    input. *)
Fixpoint matches_at_end (p s : string) : bool :=
  String.eqb s p
  || match s with
     | String _ s' => matches_at_end p s'
     | EmptyString => false
     end.

(** [PLS_MATCHER.test(s)], with
    [PLS_MATCHER = new RegExp(PLAYLIST_TYPE + '$')]. *)
Definition PLS_MATCHER (s : string) : bool := matches_at_end PLAYLIST_TYPE s.

(** [/^\[playlist\]/.test(rawPls)] *)
Definition header_test (rawPls : string) : bool :=
  JsString.startsWith "[playlist]" rawPls.

(** [s] starts with [keyword] and a digit comes right after it. *)
Definition keyword_then_digit (keyword s : string) : bool :=
  JsString.startsWith keyword s &&
  match JsString.drop (String.length keyword) s with
  | String d _ => JsString.is_digit d
  | EmptyString => false
  end.

(** [/^(File|Length|Title)\d+/.test(entry)] *)
Definition TRACK_PROPERTY_MATCHER (entry : string) : bool :=
  keyword_then_digit "File" entry
  || keyword_then_digit "Length" entry
  || keyword_then_digit "Title" entry.

(** [entry.slice(0, entry.indexOf('='))] *)
Definition entry_key (entry : string) : string :=
  JsString.slice entry 0 (JsString.indexOf "=" entry).

(** [entry.slice(entry.indexOf('=') + 1)] *)
Definition entry_value (entry : string) : string :=
  JsString.slice_from entry (JsString.indexOf "=" entry + 1).

(** [camelize(key.substring(0, key.search(/\d/)))] *)
Definition trackPropertyName (key : string) : string :=
  Ember.camelize
    (JsString.substring key 0 (JsString.search JsString.is_digit key)).

(** [key.substring(key.search(/\d/))] *)
Definition existingTrackKey (key : string) : string :=
  JsString.substring_from key (JsString.search JsString.is_digit key).

(** [entry.split('=')[1]] *)
Definition second_piece (entry : string) : value :=
  match JsString.split "=" entry !! 1%nat with
  | Some piece => VStr piece
  | None => VUndefined
  end.

(** The truthiness of [createdTracks[k]]: a recorded position is truthy
    unless it is [0]; an inherited property is an object; a missing one is
    [undefined]. *)
Definition truthy (s : JsObject.slot nat) : bool :=
  match s with
  | JsObject.Own (S _) => true
  | JsObject.Own O => false
  | JsObject.Inherited => true
  | JsObject.Missing => false
  end.

(** [{ file: '', length: -1, title: '' }] *)
Definition new_track : Track :=
  {[ "file" := VStr ""; "length" := VNum (-1); "title" := VStr "" ]}.

Definition with_tracks (ts : list Track) (p : Pls) : Pls :=
  {| numberofentries := numberofentries p; playlistType := playlistType p;
     tracks := ts; version := version p |}.

(** [pls[name] = v].  The parser computes only two names here,
    [camelize(NUMBER_OF_ENTRIES)] and [camelize(VERSION)]. *)
Definition assign (name : string) (v : value) (p : Pls) : Pls :=
  if String.eqb name "numberofentries" then
    {| numberofentries := v; playlistType := playlistType p;
       tracks := tracks p; version := version p |}
  else if String.eqb name "version" then
    {| numberofentries := numberofentries p; playlistType := playlistType p;
       tracks := tracks p; version := v |}
  else p.

(** The body of the [forEach] callback, on one entry. *)
Definition on_entry (st : State) (entry : string) : completion State :=
  if TRACK_PROPERTY_MATCHER entry then
    let key := entry_key entry in
    let value := entry_value entry in
    let name := trackPropertyName key in
    let k := existingTrackKey key in
    if truthy (JsObject.get (createdTracks st) k) then
      (* [pls.tracks[createdTracks[k]]], then a property write on it,
         which throws when the track is [undefined] *)
      match JsObject.get (createdTracks st) k with
      | JsObject.Own i =>
          match tracks (pls st) !! i with
          | Some existingTrack =>
              Normal
                {| pls := with_tracks
                            (<[i := JsObject.set name (VStr value) existingTrack]>
                               (tracks (pls st)))
                            (pls st);
                   createdTracks := createdTracks st |}
          | None => Throw TypeError
          end
      | _ => Throw TypeError
      end
    else
      let track := JsObject.set name (VStr value) new_track in
      let pushed := JsArray.push track (tracks (pls st)) in
      Normal
        {| pls := with_tracks (fst pushed) (pls st);
           createdTracks :=
             JsObject.set k (snd pushed - 1)%nat (createdTracks st) |}
  else if JsString.startsWith NUMBER_OF_ENTRIES entry then
    Normal
      {| pls := assign (Ember.camelize NUMBER_OF_ENTRIES) (second_piece entry)
                       (pls st);
         createdTracks := createdTracks st |}
  else if JsString.startsWith VERSION entry then
    Normal
      {| pls := assign (Ember.camelize VERSION) (second_piece entry) (pls st);
         createdTracks := createdTracks st |}
  else Normal st.

(** [plsParts.forEach(entry => ...)], stopping at the first throw. *)
Fixpoint forEach (entries : list string) (st : State) : completion State :=
  match entries with
  | [] => Normal st
  | entry :: rest => bind (on_entry st entry) (forEach rest)
  end.

(** The result object as first created. *)
Definition initial_pls : Pls :=
  {| numberofentries := VNum 0; playlistType := PLAYLIST_TYPE;
     tracks := []; version := VNum 2 |}.

Definition initial_state : State :=
  {| pls := initial_pls; createdTracks := ∅ |}.

(** The entries the callback is run on: [rawPls.split(/\n/)] after
    [plsParts.unshift()], a call without items. *)
Definition plsParts (rawPls : string) : list string :=
  fst (JsArray.unshift [] (JsString.split "010" rawPls)).

Definition plsParser (rawPls : string) : Outcome :=
  if negb (header_test rawPls) then
    {| returned := Normal initial_pls;
       logged := [ {| message := "Invalid pls file.  Received: ";
                      received := rawPls |} ] |}
  else
    {| returned := map_completion pls (forEach (plsParts rawPls) initial_state);
       logged := [] |}.

(** * Vocabulary of the properties *)

(** [c] occurs somewhere in [s]. *)
Definition occurs (c : ascii) (s : string) : Prop :=
  ∃ a b, s = a +:+ String c b.

(** [s] without its last character. *)
Fixpoint all_but_last (s : string) : string :=
  match s with
  | EmptyString => EmptyString
  | String _ EmptyString => EmptyString
  | String a s' => String a (all_but_last s')
  end.

(** The part of [s] before the first [c]; all of [s] when [c] does not
    occur. *)
Fixpoint up_to (c : ascii) (s : string) : string :=
  match s with
  | EmptyString => EmptyString
  | String a s' => if Ascii.eqb a c then EmptyString else String a (up_to c s')
  end.

(** The part of [s] after the first [c], when [c] occurs. *)
Fixpoint after_first (c : ascii) (s : string) : option string :=
  match s with
  | EmptyString => None
  | String a s' => if Ascii.eqb a c then Some s' else after_first c s'
  end.

(** The text between the first [=] of an entry and the next [=] (or the
    end of the entry); [undefined] when the entry has no [=]. *)
Definition between_first_two_equals (entry : string) : value :=
  match after_first "=" entry with
  | Some rest => VStr (up_to "=" rest)
  | None => VUndefined
  end.

(** The keywords of [TRACK_PROPERTY_MATCHER]. *)
Definition keywords : list string := ["File"; "Length"; "Title"].

(** How the callback reads a track-property entry: the property name it
    writes, the key it looks up in [createdTracks], and the value. *)
Definition reads_as (entry name k v : string) : Prop :=
  trackPropertyName (entry_key entry) = name
  ∧ existingTrackKey (entry_key entry) = k
  ∧ entry_value entry = v.

(** The state after a fresh track for key [k] has been appended. *)
Definition appended (st : State) (name k v : string) : State :=
  {| pls := with_tracks
              (tracks (pls st) ++ [<[name := VStr v]> new_track]) (pls st);
     createdTracks := <[k := length (tracks (pls st))]> (createdTracks st) |}.

(** The state after [v] has been written into the track [t] at position
    [i]. *)
Definition merged (st : State) (i : nat) (t : Track) (name v : string) : State :=
  {| pls := with_tracks
              (<[i := <[name := VStr v]> t]> (tracks (pls st))) (pls st);
     createdTracks := createdTracks st |}.

(** Every recorded position is a position of [pls.tracks]. *)
Definition positions_valid (st : State) : Prop :=
  ∀ k i, createdTracks st !! k = Some i → i < length (tracks (pls st)).


(** Position [p] belongs to key [k0] alone. *)
Definition owns (st : State) (k0 : string) (p : nat) : Prop :=
  positions_valid st
  ∧ p < length (tracks (pls st))
  ∧ ∀ k i, createdTracks st !! k = Some i → i = p → k = k0.

(** The keys of the track-property entries, in the order of the entries. *)
Fixpoint entry_keys (entries : list string) : list string :=
  match entries with
  | [] => []
  | e :: es =>
      if TRACK_PROPERTY_MATCHER e
      then existingTrackKey (entry_key e) :: entry_keys es
      else entry_keys es
  end.

(** The number of distinct keys among [ks]. *)
Definition distinct (ks : list string) : nat :=
  size (list_to_set ks : gset string).

(** [1] when the first key of [ks] comes again later, else [0]. *)
Definition first_key_again (ks : list string) : nat :=
  match ks with
  | k :: rest => if bool_decide (k ∈ rest) then 1 else 0
  | [] => 0
  end.

(** The write of a track-property entry into a track. *)
Definition write_entry (t : Track) (e : string) : Track :=
  <[trackPropertyName (entry_key e) := VStr (entry_value e)]> t.

(** [e] is a track-property entry of key [k]. *)
Definition is_entry_of (k e : string) : bool :=
  TRACK_PROPERTY_MATCHER e && String.eqb (existingTrackKey (entry_key e)) k.

(** The writes of the entries of key [k], in order, into [t]. *)
Definition merge_entries (k : string) (t : Track) (entries : list string) : Track :=
  foldl (λ t e, if is_entry_of k e then write_entry t e else t) t entries.

(** What every track of a result looks like: [file] and [title] hold
    strings, [length] holds [-1] or a string, and the only other property a
    track can have is the one named by the empty string. *)
Definition well_shaped (t : Track) : Prop :=
  (∃ s, t !! "file" = Some (VStr s))
  ∧ (t !! "length" = Some (VNum (-1)) ∨ ∃ s, t !! "length" = Some (VStr s))
  ∧ (∃ s, t !! "title" = Some (VStr s))
  ∧ ∀ name, is_Some (t !! name) → name ∈ ["file"; "length"; "title"; ""].

(** The value of the last entry that starts with [prefix], or [default]
    when there is none. *)
Definition last_metadata (prefix : string) (default : value)
    (entries : list string) : value :=
  foldl (λ v e, if JsString.startsWith prefix e
                then between_first_two_equals e else v)
        default entries.

(** [e] matches one of the three rules of the callback. *)
Definition recognised (e : string) : bool :=
  TRACK_PROPERTY_MATCHER e
  || JsString.startsWith NUMBER_OF_ENTRIES e
  || JsString.startsWith VERSION e.

(** No track yet. *)
Definition no_track (st : State) : Prop :=
  tracks (pls st) = [] ∧ createdTracks st = ∅.

(** The first key [k1] is still recorded at position [0], and every key has
    one track. *)
Definition first_at_zero (st : State) (k1 : string) : Prop :=
  createdTracks st !! k1 = Some 0
  ∧ (∀ k, createdTracks st !! k = Some 0 → k = k1)
  ∧ length (tracks (pls st)) = size (createdTracks st).

(** No key is recorded at position [0] any more: the first key has two
    tracks, every other key one. *)
Definition zero_abandoned (st : State) : Prop :=
  (∀ k, createdTracks st !! k ≠ Some 0)
  ∧ length (tracks (pls st)) = S (size (createdTracks st)).

(** The key of a line as the specification words it: everything before
    the first [=], the whole line when there is no [=]. *)
Definition written_key (line : string) : string := up_to "=" line.

(** [s] from its first digit on; empty when it has no digit. *)
Fixpoint from_first_digit (s : string) : string :=
  match s with
  | EmptyString => EmptyString
  | String c s' => if JsString.is_digit c then s else from_first_digit s'
  end.

(** The index suffix of a line as the specification words it: the part of
    the written key from its first digit to the end.  It differs from
    [existingTrackKey (entry_key line)] on lines without [=]. *)
Definition written_suffix (line : string) : string :=
  from_first_digit (written_key line).

(** ** Documents used below *)

(** The document of the specification's second testable property. *)
Definition sample_document : string :=
  JsString.join_lines
    [ "[playlist]"; "File1=track1.mp3"; "Title1=Song One"; "Length1=180";
      "File2=track2.mp3"; "NumberOfEntries=2"; "Version=2" ].

(** [File1] given twice. *)
Definition overwrite_document : string :=
  JsString.join_lines [ "[playlist]"; "File1=a.mp3"; "File1=b.mp3" ].

(** A header and one track entry. *)
Definition short_document : string :=
  JsString.join_lines [ "[playlist]"; "File1=a.mp3" ].

(** A track that only has a title, between two others. *)
Definition title_only_document : string :=
  JsString.join_lines
    [ "[playlist]"; "File1=a.mp3"; "Title5=X"; "File2=b.mp3" ].

(** A title-only track followed by a line without [=] whose cut key is
    the title's suffix. *)
Definition cut_key_document : string :=
  JsString.join_lines [ "[playlist]"; "File1=a.mp3"; "Title5=X"; "File55" ].

(** A title-only track after the first key has come twice. *)
Definition repeated_then_title_document : string :=
  JsString.join_lines [ "[playlist]"; "File1=a.mp3"; "Title1=b"; "Title5=X" ].

(** * Properties *)

(** ** Facts about the string primitives *)

(** Decides every [<?] test of the goal, dropping the impossible cases. *)
Ltac case_ltb :=
  repeat match goal with
         | |- context [Z.ltb ?x ?y] => destruct (Z.ltb_spec x y); try lia
         end.

Section string_facts.
Local Open Scope Z_scope.
Local Arguments String.append !_ _ / : simpl nomatch.
Implicit Types (s a b : string) (c d : ascii).

Lemma str_app_empty_r s : s +:+ "" = s.
Proof. induction s; simpl; congruence. Qed.

Lemma str_app_assoc a b s : (a +:+ b) +:+ s = a +:+ (b +:+ s).
Proof. induction a; simpl; congruence. Qed.

Lemma str_length_app a b :
  String.length (a +:+ b) = (String.length a + String.length b)%nat.
Proof. induction a; simpl; congruence. Qed.

Lemma str_take_app_length a b : JsString.take (String.length a) (a +:+ b) = a.
Proof. induction a; simpl; [by destruct b | congruence]. Qed.

Lemma str_drop_app_length a b : JsString.drop (String.length a) (a +:+ b) = b.
Proof. induction a; simpl; [by destruct b | congruence]. Qed.

Lemma str_take_length s : JsString.take (String.length s) s = s.
Proof. induction s; simpl; congruence. Qed.

Lemma str_take_zero s : JsString.take 0 s = "".
Proof. by destruct s. Qed.

Lemma str_drop_zero s : JsString.drop 0 s = s.
Proof. by destruct s. Qed.

Lemma str_drop_length s : JsString.drop (String.length s) s = "".
Proof. induction s; simpl; congruence. Qed.

Lemma take_all_but_last s :
  JsString.take (String.length s - 1) s = all_but_last s.
Proof.
  induction s as [|a s IH]; [done|].
  destruct s as [|a' s']; [done|].
  simpl in *. rewrite Nat.sub_0_r in IH. by rewrite IH.
Qed.

Lemma all_but_last_snoc s c : all_but_last (s +:+ String c "") = s.
Proof.
  induction s as [|a s IH]; [done|].
  simpl. rewrite IH. by destruct s.
Qed.

Lemma snoc_all_but_last s :
  s ≠ "" → ∃ c, s = all_but_last s +:+ String c "".
Proof.
  induction s as [|a s IH]; [done|]. intros _.
  destruct s as [|a' s']; [by exists a|].
  destruct IH as [c Hc]; [done|]. exists c.
  change (String a (String a' s')
          = String a (all_but_last (String a' s') +:+ String c "")).
  by rewrite <- Hc.
Qed.

(** *** [search] and [indexOf] *)

Lemma indexOf_search c s :
  JsString.indexOf c s = JsString.search (λ x, Ascii.eqb x c) s.
Proof. induction s as [|a s IH]; simpl; [done|]. by rewrite IH. Qed.

Lemma search_bounds cls s :
  JsString.search cls s = -1
  ∨ 0 ≤ JsString.search cls s < JsString.length s.
Proof.
  unfold JsString.length.
  induction s as [|a s IH]; simpl; [by left|].
  destruct (cls a); [right; lia|].
  destruct IH as [-> | IH]; [by left|].
  right. destruct (Z.ltb_spec (JsString.search cls s) 0); lia.
Qed.

Lemma search_app_first cls a d b :
  JsString.search cls a = -1 → cls d = true →
  JsString.search cls (a +:+ String d b) = JsString.length a.
Proof.
  unfold JsString.length. intros Ha Hd.
  induction a as [|x a IH]; simpl in *; [by rewrite Hd|].
  destruct (cls x); [done|].
  destruct (search_bounds cls a) as [Hs | Hs].
  - rewrite IH by done.
    destruct (Z.ltb_spec (Z.of_nat (String.length a)) 0); lia.
  - destruct (Z.ltb_spec (JsString.search cls a) 0); lia.
Qed.

Lemma search_app_absent cls a b :
  JsString.search cls a = -1 → JsString.search cls b = -1 →
  JsString.search cls (a +:+ b) = -1.
Proof.
  intros Ha Hb. induction a as [|x a IH]; simpl in *; [done|].
  destruct (cls x); [done|].
  destruct (search_bounds cls a) as [Hs | Hs].
  - by rewrite IH.
  - destruct (Z.ltb_spec (JsString.search cls a) 0); lia.
Qed.

Lemma search_absent_app cls a b :
  JsString.search cls (a +:+ b) = -1 →
  JsString.search cls a = -1 ∧ JsString.search cls b = -1.
Proof.
  induction a as [|x a IH]; simpl; [done|].
  destruct (cls x); [done|]. intros H.
  destruct (search_bounds cls (a +:+ b)) as [Hs | Hs].
  - destruct (IH Hs) as [-> ->]. done.
  - destruct (Z.ltb_spec (JsString.search cls (a +:+ b)) 0); lia.
Qed.

Lemma search_found cls s :
  0 ≤ JsString.search cls s →
  ∃ a d b, s = a +:+ String d b ∧ JsString.search cls a = -1
           ∧ cls d = true.
Proof.
  induction s as [|x s IH]; simpl; [lia|].
  destruct (cls x) eqn:Hx; [by exists "", x, s|].
  destruct (search_bounds cls s) as [Hs | Hs].
  - rewrite Hs. simpl. lia.
  - intros _. destruct IH as (a & d & b & -> & Ha & Hd); [lia|].
    exists (String x a), d, b. simpl. by rewrite Hx, Ha.
Qed.

Lemma indexOf_absent c s : JsString.indexOf c s = -1 ↔ ¬ occurs c s.
Proof.
  rewrite indexOf_search. split.
  - intros Hs (a & b & ->).
    apply search_absent_app in Hs as [_ Hs].
    simpl in Hs. by rewrite Ascii.eqb_refl in Hs.
  - intros Hno.
    destruct (search_bounds (λ x, Ascii.eqb x c) s) as [Hs | Hs]; [done|].
    destruct (search_found (λ x, Ascii.eqb x c) s) as (a & d & b & -> & _ & Hd);
      [lia|].
    apply Ascii.eqb_eq in Hd as ->. destruct Hno. by exists a, b.
Qed.

Lemma indexOf_app_first c a b :
  JsString.indexOf c a = -1 →
  JsString.indexOf c (a +:+ String c b) = JsString.length a.
Proof.
  rewrite !indexOf_search. intros Ha.
  apply search_app_first; [done | apply Ascii.eqb_refl].
Qed.
End string_facts.

(** ** Keys and values of track-property entries *)

Section entry_facts.
Local Open Scope Z_scope.
Local Arguments String.append !_ _ / : simpl nomatch.
Implicit Types (s a b e kw r v : string) (c d : ascii).

Lemma str_drop_app_succ a c b :
  JsString.drop (S (String.length a)) (a +:+ String c b) = b.
Proof. induction a as [|x a IH]; [apply str_drop_zero | exact IH]. Qed.

Lemma startsWith_spec p s :
  JsString.startsWith p s = true ↔ ∃ r, s = p +:+ r.
Proof.
  revert s. induction p as [|x p IH]; intros s; simpl.
  - split; [by exists s | done].
  - destruct s as [|y s]; [split; [done | by intros [r Hr]]|].
    rewrite andb_true_iff, Ascii.eqb_eq, IH. split.
    + intros [-> [r ->]]. by exists r.
    + intros [r Hr]. injection Hr as -> ->. eauto.
Qed.

Lemma entry_with_equals a b :
  JsString.indexOf "=" a = -1 →
  entry_key (a +:+ String "=" b) = a ∧ entry_value (a +:+ String "=" b) = b.
Proof.
  intros Ha. unfold entry_key, entry_value, JsString.slice_from, JsString.slice.
  rewrite indexOf_app_first by done.
  unfold JsString.relative, JsString.between, JsString.length.
  rewrite str_length_app. simpl String.length.
  case_ltb.
  split.
  - replace (Z.to_nat _) with (String.length a) by lia.
    replace (Z.to_nat _) with 0%nat by lia.
    by rewrite str_drop_zero, str_take_app_length.
  - replace (Z.to_nat (Z.min (Z.of_nat (String.length a) + 1) _))
      with (S (String.length a)) by lia.
    rewrite str_drop_app_succ.
    replace (Z.to_nat _) with (String.length b) by lia.
    apply str_take_length.
Qed.

Lemma entry_without_equals e :
  JsString.indexOf "=" e = -1 →
  entry_key e = all_but_last e ∧ entry_value e = e.
Proof.
  intros He. unfold entry_key, entry_value, JsString.slice_from, JsString.slice.
  rewrite He. unfold JsString.relative, JsString.between, JsString.length.
  case_ltb.
  split.
  - replace (Z.to_nat (Z.min 0 _)) with 0%nat by lia.
    replace (Z.to_nat _) with (String.length e - 1)%nat by lia.
    by rewrite str_drop_zero, take_all_but_last.
  - replace (Z.to_nat (Z.min _ _)) with 0%nat by lia.
    replace (Z.to_nat _) with (String.length e) by lia.
    by rewrite str_drop_zero, str_take_length.
Qed.

Lemma substring_prefix a b :
  JsString.substring (a +:+ b) 0 (JsString.length a) = a.
Proof.
  unfold JsString.substring, JsString.clamp, JsString.between, JsString.length.
  rewrite str_length_app.
  replace (Z.to_nat (Z.min _ _)) with 0%nat by lia.
  replace (Z.to_nat _) with (String.length a) by lia.
  by rewrite str_drop_zero, str_take_app_length.
Qed.

Lemma substring_from_prefix a b :
  JsString.substring_from (a +:+ b) (JsString.length a) = b.
Proof.
  unfold JsString.substring_from, JsString.substring, JsString.clamp,
    JsString.between, JsString.length.
  rewrite str_length_app.
  replace (Z.to_nat (Z.min _ _)) with (String.length a) by lia.
  replace (Z.to_nat _) with (String.length b) by lia.
  by rewrite str_drop_app_length, str_take_length.
Qed.

Lemma substring_to_minus_one s : JsString.substring s 0 (-1) = "".
Proof.
  unfold JsString.substring, JsString.clamp, JsString.between, JsString.length.
  replace (Z.to_nat (_ - _)) with 0%nat by lia. apply str_take_zero.
Qed.

Lemma substring_from_minus_one s : JsString.substring_from s (-1) = s.
Proof.
  unfold JsString.substring_from, JsString.substring, JsString.clamp,
    JsString.between, JsString.length.
  replace (Z.to_nat (Z.min _ _)) with 0%nat by lia.
  replace (Z.to_nat _) with (String.length s) by lia.
  by rewrite str_drop_zero, str_take_length.
Qed.

Lemma digit_not_equals d : JsString.is_digit d = true → Ascii.eqb d "=" = false.
Proof. by destruct d as [[] [] [] [] [] [] [] []]. Qed.

Lemma keyword_plain kw :
  kw ∈ keywords →
  JsString.search JsString.is_digit kw = -1 ∧ JsString.indexOf "=" kw = -1.
Proof.
  unfold keywords. rewrite !elem_of_cons, elem_of_nil.
  intros [-> | [-> | [-> | []]]]; by vm_compute.
Qed.

Lemma keyword_camelize kw :
  kw ∈ keywords → Ember.camelize kw ∈ ["file"; "length"; "title"].
Proof.
  unfold keywords. rewrite !elem_of_cons, elem_of_nil.
  intros [-> | [-> | [-> | []]]]; vm_compute; auto.
Qed.

(** A key made of a keyword, a digit and more text without [=]. *)
Lemma key_with_digit kw d r :
  kw ∈ keywords → JsString.is_digit d = true →
  trackPropertyName (kw +:+ String d r) = Ember.camelize kw
  ∧ existingTrackKey (kw +:+ String d r) = String d r.
Proof.
  intros Hkw Hd. destruct (keyword_plain kw Hkw) as [Hs _].
  unfold trackPropertyName, existingTrackKey.
  rewrite (search_app_first _ kw d r Hs Hd).
  by rewrite substring_prefix, substring_from_prefix.
Qed.

(** A key that is a bare keyword. *)
Lemma key_without_digit kw :
  kw ∈ keywords →
  trackPropertyName kw = "" ∧ existingTrackKey kw = kw.
Proof.
  intros Hkw. destruct (keyword_plain kw Hkw) as [Hs _].
  unfold trackPropertyName, existingTrackKey. rewrite Hs.
  by rewrite substring_to_minus_one, substring_from_minus_one.
Qed.

Lemma no_equals_in_key kw d r :
  kw ∈ keywords → JsString.is_digit d = true → JsString.indexOf "=" r = -1 →
  JsString.indexOf "=" (kw +:+ String d r) = -1.
Proof.
  intros Hkw Hd Hr. destruct (keyword_plain kw Hkw) as [_ Hk].
  rewrite indexOf_search in *. apply search_app_absent; [done|].
  simpl. rewrite (digit_not_equals d Hd). by rewrite Hr.
Qed.

(** [KeywordN...=value]: the value is what follows the first [=]. *)
Lemma reads_with_equals kw d r v :
  kw ∈ keywords → JsString.is_digit d = true → JsString.indexOf "=" r = -1 →
  reads_as (kw +:+ String d (r +:+ String "=" v))
           (Ember.camelize kw) (String d r) v.
Proof.
  intros Hkw Hd Hr.
  pose proof (no_equals_in_key kw d r Hkw Hd Hr) as Hno.
  destruct (entry_with_equals (kw +:+ String d r) v Hno) as [Hk Hv].
  rewrite str_app_assoc in Hk, Hv. simpl in Hk, Hv.
  unfold reads_as. rewrite Hk, Hv.
  destruct (key_with_digit kw d r Hkw Hd) as [-> ->]. done.
Qed.

(** [KeywordN...c] without any [=]: the key loses the last character,
    the value is the whole entry. *)
Lemma reads_without_equals kw d r c :
  kw ∈ keywords → JsString.is_digit d = true →
  JsString.indexOf "=" (r +:+ String c "") = -1 →
  reads_as (kw +:+ String d (r +:+ String c ""))
           (Ember.camelize kw) (String d r)
           (kw +:+ String d (r +:+ String c "")).
Proof.
  intros Hkw Hd Hr.
  pose proof (no_equals_in_key kw d _ Hkw Hd Hr) as Hno.
  destruct (entry_without_equals _ Hno) as [Hk Hv].
  unfold reads_as. rewrite Hk, Hv.
  replace (kw +:+ String d (r +:+ String c ""))
    with ((kw +:+ String d r) +:+ String c "")
    by (by rewrite str_app_assoc).
  rewrite all_but_last_snoc.
  destruct (key_with_digit kw d r Hkw Hd) as [-> ->]. done.
Qed.

(** [KeywordN], one digit and nothing else: the key is the bare keyword. *)
Lemma reads_bare kw d :
  kw ∈ keywords → JsString.is_digit d = true →
  reads_as (kw +:+ String d "") "" kw (kw +:+ String d "").
Proof.
  intros Hkw Hd.
  assert (JsString.indexOf "=" (kw +:+ String d "") = -1) as Hno
    by (by apply no_equals_in_key).
  destruct (entry_without_equals _ Hno) as [Hk Hv].
  unfold reads_as. rewrite Hk, Hv, all_but_last_snoc.
  destruct (key_without_digit kw Hkw) as [-> ->]. done.
Qed.

Lemma keyword_then_digit_spec kw e :
  keyword_then_digit kw e = true ↔
  ∃ d r, JsString.is_digit d = true ∧ e = kw +:+ String d r.
Proof.
  unfold keyword_then_digit. rewrite andb_true_iff, startsWith_spec. split.
  - intros [[t ->] Hd]. rewrite str_drop_app_length in Hd.
    destruct t as [|d r]; [done|]. by exists d, r.
  - intros (d & r & Hd & ->). split; [by eexists|].
    by rewrite str_drop_app_length.
Qed.

Lemma matcher_spec e :
  TRACK_PROPERTY_MATCHER e = true ↔
  ∃ kw d r, kw ∈ keywords ∧ JsString.is_digit d = true
            ∧ e = kw +:+ String d r.
Proof.
  unfold TRACK_PROPERTY_MATCHER, keywords.
  rewrite !orb_true_iff, !keyword_then_digit_spec. split.
  - intros [[(d & r & ? & ->) | (d & r & ? & ->)] | (d & r & ? & ->)];
      eexists _, d, r; (split; [|done]); rewrite !elem_of_cons; tauto.
  - intros (kw & d & r & Hkw & Hd & ->).
    rewrite !elem_of_cons, elem_of_nil in Hkw.
    destruct Hkw as [-> | [-> | [-> | []]]]; eauto 10.
Qed.

(** Every entry the matcher accepts is read in one of three ways. *)
Lemma matcher_reads e :
  TRACK_PROPERTY_MATCHER e = true →
  ∃ name k v,
    reads_as e name k v
    ∧ name ∈ ["file"; "length"; "title"; ""]
    ∧ ((∃ d r, k = String d r ∧ JsString.is_digit d = true) ∨ k ∈ keywords).
Proof.
  rewrite matcher_spec. intros (kw & d & t & Hkw & Hd & ->).
  assert (Ember.camelize kw ∈ ["file"; "length"; "title"; ""]) as Hname.
  { pose proof (keyword_camelize kw Hkw) as H.
    rewrite !elem_of_cons in *. tauto. }
  destruct (search_bounds (λ x, Ascii.eqb x "=") t) as [Ht | Ht].
  - (* no [=] at all *)
    destruct t as [|x t].
    + exists "", kw, (kw +:+ String d "").
      split; [by apply reads_bare|]. split; [|by right].
      rewrite !elem_of_cons. tauto.
    + destruct (snoc_all_but_last (String x t)) as [c Hc]; [done|].
      rewrite Hc. rewrite Hc, <- indexOf_search in Ht.
      eexists _, _, _. split; [by apply reads_without_equals|].
      split; [done | left; eauto].
  - destruct (search_found (λ x, Ascii.eqb x "=") t)
      as (r & x & v & -> & Hr & Hx); [lia|].
    apply Ascii.eqb_eq in Hx as ->. rewrite <- indexOf_search in Hr.
    eexists _, _, _. split; [by apply reads_with_equals|].
    split; [done | left; eauto].
Qed.
End entry_facts.

(** ** The callback on track-property entries *)

Section callback_facts.
Implicit Types (st : State) (e name k v : string).

Lemma digit_key_not_inherited d r :
  JsString.is_digit d = true → String d r ∉ JsObject.object_prototype_keys.
Proof.
  intros Hd. unfold JsObject.object_prototype_keys.
  rewrite !elem_of_cons, elem_of_nil. intros H.
  repeat (destruct H as [H | H]; [injection H as -> _; by vm_compute in Hd|]).
  done.
Qed.

Lemma keyword_not_inherited kw :
  kw ∈ keywords → kw ∉ JsObject.object_prototype_keys.
Proof.
  unfold keywords, JsObject.object_prototype_keys.
  rewrite !elem_of_cons, !elem_of_nil.
  intros [-> | [-> | [-> | []]]] H;
    repeat (destruct H as [H | H]; [discriminate H|]); done.
Qed.

(** On the keys the callback computes, [createdTracks[k]] is an own
    property or [undefined], and [createdTracks[k] = i] writes an own
    property. *)
Lemma created_get (m : gmap string nat) k :
  (∃ d r, k = String d r ∧ JsString.is_digit d = true) ∨ k ∈ keywords →
  JsObject.get m k
  = match m !! k with Some i => JsObject.Own i | None => JsObject.Missing end
  ∧ ∀ i, JsObject.set k i m = <[k := i]> m.
Proof.
  intros Hk.
  assert (k ∉ JsObject.object_prototype_keys) as Hno.
  { destruct Hk as [(d & r & -> & Hd) | Hk];
      [by apply digit_key_not_inherited | by apply keyword_not_inherited]. }
  split.
  - unfold JsObject.get. destruct (m !! k); [done|].
    by rewrite bool_decide_eq_false_2.
  - intros i. unfold JsObject.set. rewrite bool_decide_eq_false_2; [done|].
    intros ->. apply Hno. unfold JsObject.object_prototype_keys.
    rewrite !elem_of_cons. tauto.
Qed.

Lemma track_set name (x : value) (t : Track) :
  name ∈ ["file"; "length"; "title"; ""] →
  JsObject.set name x t = <[name := x]> t.
Proof.
  rewrite !elem_of_cons, elem_of_nil.
  by intros [-> | [-> | [-> | [-> | []]]]].
Qed.

(** What the callback does on a track-property entry that it reads as
    [name], [k], [v]. *)
Lemma on_track_entry st e name k v :
  TRACK_PROPERTY_MATCHER e = true →
  reads_as e name k v →
  name ∈ ["file"; "length"; "title"; ""] →
  (∃ d r, k = String d r ∧ JsString.is_digit d = true) ∨ k ∈ keywords →
  on_entry st e =
    match createdTracks st !! k with
    | Some (S n) =>
        match tracks (pls st) !! S n with
        | Some t => Normal (merged st (S n) t name v)
        | None => Throw TypeError
        end
    | _ => Normal (appended st name k v)
    end.
Proof.
  intros Hm (Hname & Hkey & Hval) Hn Hk.
  unfold on_entry. rewrite Hm, Hname, Hkey, Hval.
  destruct (created_get (createdTracks st) k Hk) as [-> Hset].
  destruct (createdTracks st !! k) as [[|n]|] eqn:Hpos; simpl.
  - unfold appended, JsArray.push. cbn [fst snd].
    rewrite Hset, track_set, length_app by done. cbn [length].
    by replace (length (tracks (pls st)) + 1 - 1)
      with (length (tracks (pls st))) by lia.
  - destruct (tracks (pls st) !! S n); [|done].
    unfold merged. by rewrite track_set.
  - unfold appended, JsArray.push. cbn [fst snd].
    rewrite Hset, track_set, length_app by done. cbn [length].
    by replace (length (tracks (pls st)) + 1 - 1)
      with (length (tracks (pls st))) by lia.
Qed.

Lemma not_track_entry_created st e st' :
  TRACK_PROPERTY_MATCHER e = false → on_entry st e = Normal st' →
  createdTracks st' = createdTracks st ∧ tracks (pls st') = tracks (pls st).
Proof.
  unfold on_entry. intros ->.
  destruct (JsString.startsWith NUMBER_OF_ENTRIES e);
    [intros [= <-]; done|].
  destruct (JsString.startsWith VERSION e); intros [= <-]; done.
Qed.

Lemma not_track_entry_normal st e :
  TRACK_PROPERTY_MATCHER e = false → ∃ st', on_entry st e = Normal st'.
Proof.
  unfold on_entry. intros ->.
  destruct (JsString.startsWith NUMBER_OF_ENTRIES e); [by eexists|].
  destruct (JsString.startsWith VERSION e); by eexists.
Qed.

(** The callback never throws in a state whose recorded positions are
    valid, and keeps them valid. *)
Lemma on_entry_valid st e :
  positions_valid st →
  ∃ st', on_entry st e = Normal st' ∧ positions_valid st'.
Proof.
  intros Hst. destruct (TRACK_PROPERTY_MATCHER e) eqn:Hm.
  - destruct (matcher_reads e Hm) as (name & k & v & Hr & Hn & Hk).
    rewrite (on_track_entry st e name k v Hm Hr Hn Hk).
    assert (positions_valid (appended st name k v)) as Happ.
    { intros k' i. unfold appended. simpl. rewrite length_app. simpl.
      destruct (decide (k = k')) as [<- | Hne].
      - rewrite lookup_insert_eq. intros [= <-]. lia.
      - rewrite lookup_insert_ne by done. intros H%Hst. lia. }
    destruct (createdTracks st !! k) as [[|n]|] eqn:Hpos; [by eauto | | by eauto].
    destruct (lookup_lt_is_Some_2 (tracks (pls st)) (S n)) as [t Ht];
      [by eapply Hst|].
    rewrite Ht. eexists. split; [done|].
    intros k' i. unfold merged. simpl. rewrite length_insert. apply Hst.
  - destruct (not_track_entry_normal st e Hm) as [st' Hst'].
    exists st'. split; [done|].
    destruct (not_track_entry_created st e st' Hm Hst') as [Hc Ht].
    intros k i. rewrite Hc, Ht. apply Hst.
Qed.

Lemma forEach_valid entries st :
  positions_valid st →
  ∃ st', forEach entries st = Normal st' ∧ positions_valid st'.
Proof.
  revert st. induction entries as [|e entries IH]; intros st Hst; simpl.
  - by exists st.
  - destruct (on_entry_valid st e Hst) as (st1 & -> & Hst1). simpl.
    by apply IH.
Qed.

Lemma initial_valid : positions_valid initial_state.
Proof. intros k i. unfold initial_state. simpl. by rewrite lookup_empty. Qed.


Lemma forEach_app entries1 entries2 st :
  forEach (entries1 ++ entries2) st
  = bind (forEach entries1 st) (forEach entries2).
Proof.
  revert st. induction entries1 as [|e entries1 IH]; intros st; simpl; [done|].
  destruct (on_entry st e); simpl; [apply IH | done].
Qed.
End callback_facts.

(** ** Metadata entries *)

Section metadata_facts.
Implicit Types (st : State) (e s : string) (c : ascii).

Lemma split_unfold c s :
  JsString.split c s
  = up_to c s :: match after_first c s with
                 | Some rest => JsString.split c rest
                 | None => []
                 end.
Proof.
  induction s as [|a s IH]; simpl; [done|].
  destruct (Ascii.eqb a c); [|rewrite IH]; done.
Qed.

Lemma second_piece_between e : second_piece e = between_first_two_equals e.
Proof.
  unfold second_piece, between_first_two_equals.
  rewrite split_unfold. simpl.
  destruct (after_first "=" e) as [rest|]; [|done].
  by rewrite split_unfold.
Qed.

Lemma metadata_not_track e :
  JsString.startsWith NUMBER_OF_ENTRIES e = true
  ∨ JsString.startsWith VERSION e = true →
  TRACK_PROPERTY_MATCHER e = false.
Proof.
  rewrite !startsWith_spec. by intros [[r ->] | [r ->]].
Qed.

Lemma version_not_entry_count e :
  JsString.startsWith VERSION e = true →
  JsString.startsWith NUMBER_OF_ENTRIES e = false.
Proof. rewrite startsWith_spec. by intros [r ->]. Qed.
End metadata_facts.

(** ** The header check *)

(** C3: for the empty string and for every string that does not start with
    [[playlist]], the parser logs exactly one diagnostic, carrying the raw
    input, and returns the default document
    [{numberofentries: 0, playlistType: 'pls', tracks: [], version: 2}],
    whatever else the string contains. *)
Theorem invalid_header_default (rawPls : string) :
  rawPls = "" ∨ ¬ (∃ rest, rawPls = "[playlist]" +:+ rest) →
  plsParser rawPls
  = {| returned :=
         Normal {| numberofentries := VNum 0; playlistType := "pls";
                   tracks := []; version := VNum 2 |};
       logged := [ {| message := "Invalid pls file.  Received: ";
                      received := rawPls |} ] |}.
Proof.
  intros H. unfold plsParser, header_test.
  destruct (JsString.startsWith "[playlist]" rawPls) eqn:Hh; [|done].
  apply startsWith_spec in Hh. destruct H as [-> | H]; [|done].
  by destruct Hh as [rest Hrest].
Qed.

Lemma invalid_header_default_witness :
  plsParser ""
  = {| returned :=
         Normal {| numberofentries := VNum 0; playlistType := "pls";
                   tracks := []; version := VNum 2 |};
       logged := [ {| message := "Invalid pls file.  Received: ";
                      received := "" |} ] |}.
Proof. apply (invalid_header_default ""). left. reflexivity. Defined.

(** A document with a valid body but a space before the header is
    rejected as a whole. *)
Example leading_space_rejected :
  returned (plsParser (" " +:+ sample_document)) = Normal initial_pls
  ∧ length (logged (plsParser (" " +:+ sample_document))) = 1.
Proof. by vm_compute. Qed.

(** ** Safety *)

(** C4: for every input string the parser returns a document; it never
    throws. *)
Theorem parser_never_throws (rawPls : string) :
  ∃ doc, returned (plsParser rawPls) = Normal doc.
Proof.
  unfold plsParser. destruct (negb (header_test rawPls)); simpl; [by eexists|].
  destruct (forEach_valid (plsParts rawPls) initial_state initial_valid)
    as (st & -> & _).
  by eexists.
Qed.

(** ** The header entry *)

Lemma plsParts_split rawPls : plsParts rawPls = JsString.split "010" rawPls.
Proof. reflexivity. Qed.

(** The header entry stays in front of the entries, and the callback
    ignores it. *)
Lemma header_entry_ignored rawPls st :
  header_test rawPls = true →
  ∃ header entries,
    plsParts rawPls = header :: entries
    ∧ forEach (plsParts rawPls) st = forEach entries st.
Proof.
  unfold header_test. rewrite startsWith_spec. intros [rest ->].
  rewrite plsParts_split, split_unfold.
  eexists _, _. split; [done|]. simpl.
  destruct (after_first "010" rest); done.
Qed.

(** C5: the entries the callback runs on still begin with the header line:
    [plsParts.unshift()] removes nothing.  On [short_document] the callback
    is run on two entries, the header and [File1=a.mp3]. *)
Theorem header_entry_not_removed :
  plsParts short_document = ["[playlist]"; "File1=a.mp3"]
  ∧ length (plsParts short_document)
    = length (JsString.split "010" short_document).
Proof. by vm_compute. Qed.

(** ** Entries the callback does not recognise *)

(** C9: an entry that matches none of the three rules (not a
    File/Length/Title-with-digits entry, not starting with
    [Numberofentries], not starting with [Version]) leaves the state as it
    is: [tracks], [numberofentries] and [version] are unchanged. *)
Theorem unrecognized_entry_ignored (st : State) (entry : string) :
  TRACK_PROPERTY_MATCHER entry = false →
  JsString.startsWith NUMBER_OF_ENTRIES entry = false →
  JsString.startsWith VERSION entry = false →
  ∃ st', on_entry st entry = Normal st'
         ∧ tracks (pls st') = tracks (pls st)
         ∧ numberofentries (pls st') = numberofentries (pls st)
         ∧ version (pls st') = version (pls st).
Proof.
  intros Hm Hn Hv. exists st. unfold on_entry. by rewrite Hm, Hn, Hv.
Qed.

Lemma unrecognized_entry_ignored_witness :
  ∃ st', on_entry initial_state "" = Normal st'
         ∧ tracks (pls st') = tracks (pls initial_state)
         ∧ numberofentries (pls st') = numberofentries (pls initial_state)
         ∧ version (pls st') = version (pls initial_state).
Proof.
  apply (unrecognized_entry_ignored initial_state ""); reflexivity.
Defined.

(** ** Values of metadata entries *)

(** C6, as stated, fails: on [Numberofentries=2=3] the callback stores
    [2], not the whole remainder [2=3]. *)
Lemma entry_count_cut_at_second_equals :
  ∃ st', on_entry initial_state "Numberofentries=2=3" = Normal st'
         ∧ numberofentries (pls st') = VStr "2"
         ∧ numberofentries (pls st') ≠ VStr "2=3".
Proof. eexists. split; [reflexivity|]. by vm_compute. Qed.

(** C6, amended: for every entry starting with [Numberofentries] (likewise
    [Version]) the callback assigns to [numberofentries] (likewise
    [version]) the text between the entry's first [=] and its next [=], or
    the end of the entry when there is no second [=]; the value is
    [undefined] when the entry has no [=].  Nothing else changes. *)
Theorem metadata_entry_value (st : State) (entry : string) :
  JsString.startsWith NUMBER_OF_ENTRIES entry = true
  ∨ JsString.startsWith VERSION entry = true →
  ∃ st', on_entry st entry = Normal st'
    ∧ tracks (pls st') = tracks (pls st)
    ∧ playlistType (pls st') = playlistType (pls st)
    ∧ createdTracks st' = createdTracks st
    ∧ (JsString.startsWith NUMBER_OF_ENTRIES entry = true →
       numberofentries (pls st') = between_first_two_equals entry
       ∧ version (pls st') = version (pls st))
    ∧ (JsString.startsWith VERSION entry = true →
       version (pls st') = between_first_two_equals entry
       ∧ numberofentries (pls st') = numberofentries (pls st)).
Proof.
  intros H. unfold on_entry.
  rewrite (metadata_not_track entry H), second_piece_between.
  destruct (JsString.startsWith NUMBER_OF_ENTRIES entry) eqn:Hn.
  - eexists. split; [done|]. do 3 (split; [done|]). split; [done|].
    intros Hv%version_not_entry_count. congruence.
  - destruct H as [H | ->]; [done|].
    eexists. split; [done|]. do 3 (split; [done|]). split; done.
Qed.

Lemma metadata_entry_value_witness :
  ∃ st', on_entry initial_state "Numberofentries=2=3" = Normal st'
    ∧ tracks (pls st') = tracks (pls initial_state)
    ∧ playlistType (pls st') = playlistType (pls initial_state)
    ∧ createdTracks st' = createdTracks initial_state
    ∧ (JsString.startsWith NUMBER_OF_ENTRIES "Numberofentries=2=3" = true →
       numberofentries (pls st') = between_first_two_equals "Numberofentries=2=3"
       ∧ version (pls st') = version (pls initial_state))
    ∧ (JsString.startsWith VERSION "Numberofentries=2=3" = true →
       version (pls st') = between_first_two_equals "Numberofentries=2=3"
       ∧ numberofentries (pls st') = numberofentries (pls initial_state)).
Proof.
  apply (metadata_entry_value initial_state "Numberofentries=2=3").
  left. reflexivity.
Defined.

Example between_first_two_equals_examples :
  between_first_two_equals "Numberofentries=2=3" = VStr "2"
  ∧ between_first_two_equals "Version=2" = VStr "2"
  ∧ between_first_two_equals "Version" = VUndefined.
Proof. by vm_compute. Qed.

(** ** Track-property entries without [=] *)

(** C7, as stated, fails: the key of [File12], an entry without [=], is
    [File1], not the whole entry. *)
Lemma key_without_equals_not_whole :
  TRACK_PROPERTY_MATCHER "File12" = true
  ∧ ¬ occurs "=" "File12"
  ∧ entry_key "File12" = "File1"
  ∧ entry_key "File12" ≠ "File12".
Proof.
  split; [reflexivity|]. split; [by apply indexOf_absent|].
  split; [reflexivity | by vm_compute].
Qed.

(** C7, amended: for every track-property entry that contains no [=], the
    extracted key is the entry without its last character and the
    extracted value is the whole entry. *)
Theorem key_without_equals (entry : string) :
  TRACK_PROPERTY_MATCHER entry = true →
  ¬ occurs "=" entry →
  entry_key entry = all_but_last entry
  ∧ (∃ c, entry = entry_key entry +:+ String c "")
  ∧ entry_value entry = entry.
Proof.
  intros Hm Hno. apply indexOf_absent in Hno.
  destruct (entry_without_equals entry Hno) as [Hk Hv].
  split; [done|]. split; [|done].
  rewrite Hk. apply snoc_all_but_last. by intros ->.
Qed.

Lemma key_without_equals_witness :
  entry_key "File12" = all_but_last "File12"
  ∧ (∃ c, "File12" = entry_key "File12" +:+ String c "")
  ∧ entry_value "File12" = "File12".
Proof.
  apply (key_without_equals "File12"); [reflexivity|].
  apply indexOf_absent. reflexivity.
Defined.

(** An entry without [=] is filed under the key cut short: [File55] is
    read as an entry of key [5] and is merged into the track of
    [Title5=X]. *)
Example entry_without_equals_merged :
  reads_as "File55" "file" "5" "File55"
  ∧ map_completion (λ st, tracks (pls st))
      (forEach ["File1=a.mp3"; "Title5=X"; "File55"] initial_state)
    = Normal
        [ {[ "file" := VStr "a.mp3"; "length" := VNum (-1);
             "title" := VStr "" ]};
          {[ "file" := VStr "File55"; "length" := VNum (-1);
             "title" := VStr "X" ]} ].
Proof. by vm_compute. Qed.

(** ** Merging of track entries *)

(** C1 on [overwrite_document]: the two [File1] entries give two tracks,
    and the first keeps [a.mp3]. *)
Theorem repeated_first_key_two_tracks :
  returned (plsParser overwrite_document)
  = Normal
      {| numberofentries := VNum 0; playlistType := "pls";
         tracks :=
           [ {[ "file" := VStr "a.mp3"; "length" := VNum (-1);
                "title" := VStr "" ]};
             {[ "file" := VStr "b.mp3"; "length" := VNum (-1);
                "title" := VStr "" ]} ];
         version := VNum 2 |}.
Proof. by vm_compute. Qed.

(** C2 on [sample_document]: the parser returns three tracks, the second
    holding the title and length of track 1, and [numberofentries] keeps
    its default [0]; [version] is ['2']. *)
Theorem sample_document_result :
  returned (plsParser sample_document)
  = Normal
      {| numberofentries := VNum 0; playlistType := "pls";
         tracks :=
           [ {[ "file" := VStr "track1.mp3"; "length" := VNum (-1);
                "title" := VStr "" ]};
             {[ "file" := VStr ""; "length" := VStr "180";
                "title" := VStr "Song One" ]};
             {[ "file" := VStr "track2.mp3"; "length" := VNum (-1);
                "title" := VStr "" ]} ];
         version := VStr "2" |}.
Proof. by vm_compute. Qed.

Section merging_facts.
Implicit Types (st : State) (e name k v : string).


(** An entry only changes the record of its own key. *)
Lemma on_entry_other_keys st e st' k0 :
  on_entry st e = Normal st' →
  (TRACK_PROPERTY_MATCHER e = true → k0 ≠ existingTrackKey (entry_key e)) →
  createdTracks st' !! k0 = createdTracks st !! k0.
Proof.
  intros Hrun Hne. destruct (TRACK_PROPERTY_MATCHER e) eqn:Hm.
  - destruct (matcher_reads e Hm) as (name & k & v & Hr & Hn & Hk).
    rewrite (on_track_entry st e name k v Hm Hr Hn Hk) in Hrun.
    destruct Hr as (_ & Hkey & _). rewrite Hkey in Hne.
    assert (createdTracks (appended st name k v) !! k0
            = createdTracks st !! k0) as Happ.
    { unfold appended. simpl. rewrite lookup_insert_ne; [done|].
      intros ->. by apply Hne. }
    destruct (createdTracks st !! k) as [[|n]|];
      [by injection Hrun as <- | | by injection Hrun as <-].
    destruct (tracks (pls st) !! S n); [|done]. by injection Hrun as <-.
  - by destruct (not_track_entry_created st e st' Hm Hrun) as [-> _].
Qed.

Lemma forEach_other_keys entries st st' k0 :
  (∀ e, e ∈ entries → TRACK_PROPERTY_MATCHER e = true →
        existingTrackKey (entry_key e) ≠ k0) →
  forEach entries st = Normal st' →
  createdTracks st' !! k0 = createdTracks st !! k0.
Proof.
  revert st. induction entries as [|e entries IH]; intros st Hne; simpl.
  - by intros [= <-].
  - destruct (on_entry st e) as [st1|] eqn:Hstep; simpl; [|done].
    intros Hrun. rewrite (IH st1); [| |done].
    + apply (on_entry_other_keys st e st1 k0 Hstep).
      intros Hm Heq. apply (Hne e); [left | done | done].
    + intros e' He'. apply Hne. by right.
Qed.

Lemma on_entry_keeps_track st e st' k0 p :
  owns st k0 p →
  (TRACK_PROPERTY_MATCHER e = true → existingTrackKey (entry_key e) ≠ k0) →
  on_entry st e = Normal st' →
  owns st' k0 p ∧ tracks (pls st') !! p = tracks (pls st) !! p.
Proof.
  intros (Hvalid & Hp & Hown) Hne Hrun.
  destruct (on_entry_valid st e Hvalid) as (st1 & Hrun1 & Hvalid1).
  rewrite Hrun in Hrun1. injection Hrun1 as <-.
  destruct (TRACK_PROPERTY_MATCHER e) eqn:Hm.
  - destruct (matcher_reads e Hm) as (name & k & v & Hr & Hn & Hk).
    rewrite (on_track_entry st e name k v Hm Hr Hn Hk) in Hrun.
    destruct Hr as (_ & Hkey & _). rewrite Hkey in Hne.
    assert (Normal (appended st name k v) = Normal st' →
            owns st' k0 p ∧ tracks (pls st') !! p = tracks (pls st) !! p)
      as Happ.
    { intros [= <-]. unfold owns, appended in *. simpl in *.
      rewrite length_app. simpl. split; [split; [done|split; [lia|]]|].
      - intros k' i. destruct (decide (k = k')) as [<- | Hkk'].
        + rewrite lookup_insert_eq. intros [= <-] Hip. exfalso. lia.
        + rewrite lookup_insert_ne by done. apply Hown.
      - by rewrite lookup_app_l. }
    destruct (createdTracks st !! k) as [[|n]|] eqn:Hpos; [by auto | | by auto].
    destruct (tracks (pls st) !! S n) as [t|]; [|done].
    injection Hrun as <-. unfold owns, merged in *. simpl in *.
    rewrite length_insert. split; [done|].
    apply list_lookup_insert_ne. intros Heq.
    apply Hne; [done|]. by eapply Hown.
  - destruct (not_track_entry_created st e st' Hm Hrun) as [Hc Ht].
    unfold owns. rewrite Ht. split; [|done].
    split; [done|]. split; [done|]. intros k i. rewrite Hc. apply Hown.
Qed.

Lemma forEach_keeps_track entries st st' k0 p :
  owns st k0 p →
  (∀ e, e ∈ entries → TRACK_PROPERTY_MATCHER e = true →
        existingTrackKey (entry_key e) ≠ k0) →
  forEach entries st = Normal st' →
  tracks (pls st') !! p = tracks (pls st) !! p.
Proof.
  revert st. induction entries as [|e entries IH]; intros st Hown Hne; simpl.
  - by intros [= <-].
  - destruct (on_entry st e) as [st1|] eqn:Hstep; simpl; [|done].
    intros Hrun.
    destruct (on_entry_keeps_track st e st1 k0 p Hown) as [Hown1 <-];
      [intros Hm; apply Hne; [left | done] | done |].
    apply IH; [done | | done].
    intros e' He'. apply Hne. by right.
Qed.

Lemma title_track (x : string) :
  <["title" := VStr x]> new_track
  = ({[ "file" := VStr ""; "length" := VNum (-1); "title" := VStr x ]} : Track).
Proof.
  unfold new_track.
  rewrite (insert_insert_ne _ "title" "file") by done.
  rewrite (insert_insert_ne _ "title" "length") by done.
  by rewrite insert_singleton_eq.
Qed.
End merging_facts.



(** Three entries for the first key: the second starts a second track and
    the third is merged into that second track. *)
Example first_key_three_entries :
  map_completion (λ st, tracks (pls st))
    (forEach ["File1=a.mp3"; "Title1=b"; "Length1=7"] initial_state)
  = Normal
      [ {[ "file" := VStr "a.mp3"; "length" := VNum (-1); "title" := VStr "" ]};
        {[ "file" := VStr ""; "length" := VStr "7"; "title" := VStr "b" ]} ].
Proof. by vm_compute. Qed.

(** Three entries for a key recorded at position [1]: all three are merged
    into one track. *)
Example later_key_three_entries :
  map_completion (λ st, tracks (pls st))
    (forEach ["File1=a.mp3"; "File2=b.mp3"; "Title2=c"; "Length2=9"]
             initial_state)
  = Normal
      [ {[ "file" := VStr "a.mp3"; "length" := VNum (-1); "title" := VStr "" ]};
        {[ "file" := VStr "b.mp3"; "length" := VStr "9"; "title" := VStr "c" ]} ].
Proof. by vm_compute. Qed.

(** ** A track that only has a title *)

(** When the only entry filed under a given key is a Title entry
    [Title<key>=x], the returned tracks hold the track
    [{file: '', length: -1, title: x}] at the position where that entry
    appended it, that is, right after the tracks made by the entries before
    it. *)
Theorem title_only_track (rawPls : string) (before after : list string)
    (d : ascii) (r x : string) :
  (∃ rest, rawPls = "[playlist]" +:+ rest) →
  JsString.split "010" rawPls
  = before ++ ("Title" +:+ String d r +:+ String "=" x) :: after →
  JsString.is_digit d = true →
  ¬ occurs "=" r →
  Forall (λ e, TRACK_PROPERTY_MATCHER e = true →
               existingTrackKey (entry_key e) ≠ String d r)
         (before ++ after) →
  ∃ st doc,
    forEach before initial_state = Normal st
    ∧ returned (plsParser rawPls) = Normal doc
    ∧ tracks doc !! length (tracks (pls st))
      = Some {[ "file" := VStr ""; "length" := VNum (-1); "title" := VStr x ]}.
Proof.
  intros Hhead Hsplit Hd Hr Hothers.
  apply startsWith_spec in Hhead. apply indexOf_absent in Hr.
  rewrite Forall_app, !Forall_forall in Hothers.
  destruct Hothers as [Hbefore Hafter].
  set (k := String d r). set (e := "Title" +:+ k +:+ String "=" x) in *.
  assert ("Title" ∈ keywords) as Hkw
    by (unfold keywords; rewrite !elem_of_cons; tauto).
  assert (TRACK_PROPERTY_MATCHER e = true) as Hm.
  { apply matcher_spec. by exists "Title", d, (r +:+ String "=" x). }
  pose proof (reads_with_equals "Title" d r x Hkw Hd Hr) as Hreads.
  change (Ember.camelize "Title") with "title" in Hreads.
  (* the entries before *)
  destruct (forEach_valid before initial_state initial_valid)
    as (st1 & Hrun1 & Hvalid1).
  pose proof (forEach_other_keys before initial_state st1 k Hbefore Hrun1)
    as Hfresh.
  change (createdTracks initial_state !! k) with (@None nat) in Hfresh.
  (* the Title entry *)
  assert (on_entry st1 e = Normal (appended st1 "title" k x)) as Hstep.
  { rewrite (on_track_entry st1 e "title" k x Hm Hreads).
    - fold k in Hfresh. by rewrite Hfresh.
    - rewrite !elem_of_cons. tauto.
    - left. by exists d, r. }
  (* the entries after *)
  set (p := length (tracks (pls st1))).
  assert (owns (appended st1 "title" k x) k p) as Hown.
  { destruct (on_entry_valid st1 e Hvalid1) as (st2 & Hrun2 & Hvalid2).
    rewrite Hstep in Hrun2. injection Hrun2 as <-.
    split; [done|]. unfold appended. simpl. rewrite length_app. simpl.
    split; [unfold p; lia|].
    intros k' i. destruct (decide (k = k')) as [<- | Hne]; [done|].
    rewrite lookup_insert_ne by done. intros Hpos%Hvalid1 ->. unfold p in *. lia. }
  destruct (forEach_valid after (appended st1 "title" k x) (proj1 Hown))
    as (st3 & Hrun3 & _).
  pose proof (forEach_keeps_track after _ st3 k p Hown Hafter Hrun3) as Hkeep.
  exists st1, (pls st3). split; [done|]. split.
  - unfold plsParser, header_test. rewrite Hhead. simpl.
    rewrite plsParts_split, Hsplit, forEach_app, Hrun1. simpl.
    fold k e. rewrite Hstep. simpl. by rewrite Hrun3.
  - fold p. rewrite Hkeep. unfold appended. simpl.
    rewrite list_lookup_middle by done. by rewrite title_track.
Qed.

Lemma title_only_track_witness :
  ∃ st doc,
    forEach ["[playlist]"; "File1=a.mp3"] initial_state = Normal st
    ∧ returned (plsParser title_only_document) = Normal doc
    ∧ tracks doc !! length (tracks (pls st))
      = Some {[ "file" := VStr ""; "length" := VNum (-1); "title" := VStr "X" ]}.
Proof.
  apply (title_only_track title_only_document
           ["[playlist]"; "File1=a.mp3"] ["File2=b.mp3"] "5" "" "X").
  - eexists. reflexivity.
  - reflexivity.
  - reflexivity.
  - apply indexOf_absent. reflexivity.
  - repeat constructor; by vm_compute.
Defined.

(** The track of [Title5=X] in [title_only_document] sits between the
    tracks of the entries around it. *)
Example title_only_document_tracks :
  map_completion tracks (returned (plsParser title_only_document))
  = Normal
      [ {[ "file" := VStr "a.mp3"; "length" := VNum (-1); "title" := VStr "" ]};
        {[ "file" := VStr ""; "length" := VNum (-1); "title" := VStr "X" ]};
        {[ "file" := VStr "b.mp3"; "length" := VNum (-1); "title" := VStr "" ]} ].
Proof. by vm_compute. Qed.

(** * Further properties of the parser *)

(** ** The entries of a document *)

Section split_facts.
Local Arguments String.append !_ _ / : simpl nomatch.
Implicit Types (s : string) (c : ascii).

Lemma split_not_nil c s : JsString.split c s ≠ [].
Proof. by rewrite split_unfold. Qed.

Lemma split_pieces_plain c s :
  Forall (λ e, JsString.indexOf c e = (-1)%Z) (JsString.split c s).
Proof.
  induction s as [|a s IH]; simpl; [by repeat constructor|].
  destruct (Ascii.eqb a c) eqn:Ha; [by constructor|].
  destruct (JsString.split c s) as [|piece pieces]; simpl.
  - repeat constructor. simpl. by rewrite Ha.
  - inversion IH as [|?? Hpiece Hpieces]; subst. constructor; [|done].
    simpl. by rewrite Ha, Hpiece.
Qed.

Lemma join_split s : JsString.join_lines (JsString.split "010" s) = s.
Proof.
  induction s as [|a s IH]; [done|]. simpl JsString.split.
  pose proof (split_not_nil "010" s) as Hne.
  destruct (Ascii.eqb a "010") eqn:Ha.
  - apply Ascii.eqb_eq in Ha as ->.
    destruct (JsString.split "010" s) as [|piece pieces]; [done|].
    change (JsString.join_lines ("" :: piece :: pieces))
      with ("" +:+ String "010" (JsString.join_lines (piece :: pieces))).
    by rewrite IH.
  - destruct (JsString.split "010" s) as [|piece pieces]; [done|].
    destruct pieces as [|piece' pieces].
    + simpl in *. by rewrite IH.
    + change (JsString.join_lines (String a piece :: piece' :: pieces))
        with (String a piece +:+ String "010"
                (JsString.join_lines (piece' :: pieces))).
      change (JsString.join_lines (piece :: piece' :: pieces))
        with (piece +:+ String "010" (JsString.join_lines (piece' :: pieces)))
        in IH.
      rewrite <- IH. reflexivity.
Qed.
End split_facts.

(** X1: the entries the callback is run on are the lines of the document:
    there is at least one, none contains a newline, and joined with
    newlines they give the document back (a carriage return before a
    newline stays at the end of its entry). *)
Theorem entries_are_the_lines (rawPls : string) :
  plsParts rawPls ≠ []
  ∧ Forall (λ e, ¬ occurs "010" e) (plsParts rawPls)
  ∧ JsString.join_lines (plsParts rawPls) = rawPls.
Proof.
  rewrite plsParts_split. split; [apply split_not_nil|]. split; [|apply join_split].
  eapply Forall_impl; [apply split_pieces_plain|].
  intros e He. by apply indexOf_absent.
Qed.

(** ** Diagnostics *)

(** X2: the parser logs at most once, and it logs nothing exactly when the
    document starts with [[playlist]]. *)
Theorem logs_only_invalid_header (rawPls : string) :
  length (logged (plsParser rawPls)) ≤ 1
  ∧ (logged (plsParser rawPls) = [] ↔ ∃ rest, rawPls = "[playlist]" +:+ rest).
Proof.
  rewrite <- startsWith_spec. unfold plsParser, header_test.
  destruct (JsString.startsWith "[playlist]" rawPls); simpl.
  - split; [lia | done].
  - split; [lia | split; done].
Qed.

(** ** The header entry is harmless *)

(** X3: for a document that starts with [[playlist]], the parser returns
    what it would return if the first entry had been removed before the
    iteration: keeping the header entry changes nothing. *)
Theorem header_entry_harmless (rawPls : string) :
  (∃ rest, rawPls = "[playlist]" +:+ rest) →
  returned (plsParser rawPls)
  = map_completion pls
      (forEach (tail (JsString.split "010" rawPls)) initial_state).
Proof.
  intros Hh. apply startsWith_spec in Hh.
  destruct (header_entry_ignored rawPls initial_state Hh)
    as (header & entries & Hparts & Hrun).
  unfold plsParser. fold (header_test rawPls). unfold header_test in *.
  rewrite Hh. simpl. rewrite Hrun.
  rewrite plsParts_split in Hparts. by rewrite Hparts.
Qed.

Lemma header_entry_harmless_witness :
  returned (plsParser short_document)
  = map_completion pls
      (forEach (tail (JsString.split "010" short_document)) initial_state).
Proof.
  apply (header_entry_harmless short_document). eexists. reflexivity.
Defined.

(** ** Metadata of the result *)

Section metadata_run_facts.
Implicit Types (st : State) (e : string).

Lemma track_entry_not_metadata e :
  TRACK_PROPERTY_MATCHER e = true →
  JsString.startsWith NUMBER_OF_ENTRIES e = false
  ∧ JsString.startsWith VERSION e = false.
Proof.
  intros Hm.
  destruct (JsString.startsWith NUMBER_OF_ENTRIES e) eqn:Hn.
  { rewrite metadata_not_track in Hm by auto. done. }
  destruct (JsString.startsWith VERSION e) eqn:Hv; [|done].
  rewrite metadata_not_track in Hm by auto. done.
Qed.

(** A track-property entry leaves the three scalar properties alone. *)
Lemma track_entry_keeps_scalars st e st' :
  TRACK_PROPERTY_MATCHER e = true → on_entry st e = Normal st' →
  numberofentries (pls st') = numberofentries (pls st)
  ∧ version (pls st') = version (pls st)
  ∧ playlistType (pls st') = playlistType (pls st).
Proof.
  intros Hm. unfold on_entry. rewrite Hm.
  destruct (truthy _).
  - destruct (JsObject.get _ _) as [|i|]; [done| |done].
    destruct (tracks (pls st) !! i); [|done]. by intros [= <-].
  - by intros [= <-].
Qed.

Lemma on_entry_playlistType st e st' :
  on_entry st e = Normal st' → playlistType (pls st') = playlistType (pls st).
Proof.
  destruct (TRACK_PROPERTY_MATCHER e) eqn:Hm.
  - intros Hrun. by destruct (track_entry_keeps_scalars st e st' Hm Hrun) as (_ & _ & ?).
  - unfold on_entry. rewrite Hm.
    destruct (JsString.startsWith NUMBER_OF_ENTRIES e); [by intros [= <-]|].
    destruct (JsString.startsWith VERSION e); by intros [= <-].
Qed.

Lemma forEach_playlistType entries st st' :
  forEach entries st = Normal st' →
  playlistType (pls st') = playlistType (pls st).
Proof.
  revert st. induction entries as [|e entries IH]; intros st; simpl.
  - by intros [= <-].
  - destruct (on_entry st e) as [st1|] eqn:Hstep; simpl; [|done].
    intros Hrun. rewrite (IH st1 Hrun). by eapply on_entry_playlistType.
Qed.

Lemma on_entry_metadata st e st' :
  on_entry st e = Normal st' →
  numberofentries (pls st')
  = (if JsString.startsWith NUMBER_OF_ENTRIES e
     then between_first_two_equals e else numberofentries (pls st))
  ∧ version (pls st')
    = (if JsString.startsWith VERSION e
       then between_first_two_equals e else version (pls st)).
Proof.
  destruct (TRACK_PROPERTY_MATCHER e) eqn:Hm.
  - intros Hrun.
    destruct (track_entry_keeps_scalars st e st' Hm Hrun) as (-> & -> & _).
    by destruct (track_entry_not_metadata e Hm) as [-> ->].
  - unfold on_entry. rewrite Hm, second_piece_between.
    destruct (JsString.startsWith NUMBER_OF_ENTRIES e) eqn:Hn.
    + destruct (JsString.startsWith VERSION e) eqn:Hv.
      { apply version_not_entry_count in Hv. congruence. }
      by intros [= <-].
    + destruct (JsString.startsWith VERSION e); by intros [= <-].
Qed.

Lemma forEach_metadata entries st st' :
  forEach entries st = Normal st' →
  numberofentries (pls st')
  = last_metadata NUMBER_OF_ENTRIES (numberofentries (pls st)) entries
  ∧ version (pls st') = last_metadata VERSION (version (pls st)) entries.
Proof.
  unfold last_metadata.
  revert st. induction entries as [|e entries IH]; intros st; simpl.
  - by intros [= <-].
  - destruct (on_entry st e) as [st1|] eqn:Hstep; simpl; [|done].
    intros Hrun. destruct (IH st1 Hrun) as [-> ->].
    by destruct (on_entry_metadata st e st1 Hstep) as [-> ->].
Qed.

Lemma last_metadata_absent prefix default entries :
  Forall (λ e, JsString.startsWith prefix e = false) entries →
  last_metadata prefix default entries = default.
Proof.
  unfold last_metadata. revert default.
  induction entries as [|e entries IH]; intros default He; [done|].
  inversion He as [|?? Hp Hrest]; subst. simpl. rewrite Hp. by apply IH.
Qed.

Lemma last_metadata_snoc prefix default entries e :
  last_metadata prefix default (entries ++ [e])
  = if JsString.startsWith prefix e then between_first_two_equals e
    else last_metadata prefix default entries.
Proof. unfold last_metadata. by rewrite foldl_app. Qed.

(** The result of a document with a valid header. *)
Lemma valid_header_run rawPls :
  JsString.startsWith "[playlist]" rawPls = true →
  ∃ st, forEach (JsString.split "010" rawPls) initial_state = Normal st
        ∧ positions_valid st
        ∧ returned (plsParser rawPls) = Normal (pls st).
Proof.
  intros Hh.
  destruct (forEach_valid (JsString.split "010" rawPls) initial_state
              initial_valid) as (st & Hrun & Hvalid).
  exists st. split; [done|]. split; [done|].
  unfold plsParser, header_test. rewrite Hh. simpl.
  by rewrite plsParts_split, Hrun.
Qed.
End metadata_run_facts.

(** X4: whatever the input, the returned document has [playlistType]
    ['pls']: no entry can change it. *)
Theorem playlist_type_constant (rawPls : string) :
  ∃ doc, returned (plsParser rawPls) = Normal doc ∧ playlistType doc = "pls".
Proof.
  destruct (JsString.startsWith "[playlist]" rawPls) eqn:Hh.
  - destruct (valid_header_run rawPls Hh) as (st & Hrun & _ & Hret).
    exists (pls st). split; [done|].
    by rewrite (forEach_playlistType _ _ _ Hrun).
  - exists initial_pls. split; [|done].
    unfold plsParser, header_test. by rewrite Hh.
Qed.

(** X5: for a document with a valid header, [numberofentries] is decided by
    the last line that starts with [Numberofentries] and [version] by the
    last line that starts with [Version] (the text between that line's
    first two [=]); without such a line the defaults [0] and [2] stay.
    Track-property lines and the order of the other lines play no part. *)
Theorem metadata_last_line_wins (rawPls : string) :
  (∃ rest, rawPls = "[playlist]" +:+ rest) →
  ∃ doc, returned (plsParser rawPls) = Normal doc
    ∧ numberofentries doc
      = last_metadata NUMBER_OF_ENTRIES (VNum 0) (JsString.split "010" rawPls)
    ∧ version doc
      = last_metadata VERSION (VNum 2) (JsString.split "010" rawPls).
Proof.
  intros Hh%startsWith_spec.
  destruct (valid_header_run rawPls Hh) as (st & Hrun & _ & Hret).
  exists (pls st). split; [done|].
  by destruct (forEach_metadata _ _ _ Hrun) as [-> ->].
Qed.

Lemma metadata_last_line_wins_witness :
  ∃ doc, returned (plsParser sample_document) = Normal doc
    ∧ numberofentries doc
      = last_metadata NUMBER_OF_ENTRIES (VNum 0)
          (JsString.split "010" sample_document)
    ∧ version doc
      = last_metadata VERSION (VNum 2) (JsString.split "010" sample_document).
Proof.
  apply (metadata_last_line_wins sample_document). eexists. reflexivity.
Defined.

(** X6: a document with a valid header in which no line starts with
    [Numberofentries] keeps [numberofentries = 0], and one in which no line
    starts with [Version] keeps [version = 2]. *)
Theorem metadata_defaults (rawPls : string) :
  (∃ rest, rawPls = "[playlist]" +:+ rest) →
  ∃ doc, returned (plsParser rawPls) = Normal doc
    ∧ (Forall (λ e, JsString.startsWith NUMBER_OF_ENTRIES e = false)
              (JsString.split "010" rawPls) →
       numberofentries doc = VNum 0)
    ∧ (Forall (λ e, JsString.startsWith VERSION e = false)
              (JsString.split "010" rawPls) →
       version doc = VNum 2).
Proof.
  intros Hh%startsWith_spec.
  destruct (valid_header_run rawPls Hh) as (st & Hrun & _ & Hret).
  exists (pls st). split; [done|].
  destruct (forEach_metadata _ _ _ Hrun) as [-> ->].
  split; intros Hno; by apply last_metadata_absent.
Qed.

Lemma metadata_defaults_witness :
  ∃ doc, returned (plsParser short_document) = Normal doc
    ∧ (Forall (λ e, JsString.startsWith NUMBER_OF_ENTRIES e = false)
              (JsString.split "010" short_document) →
       numberofentries doc = VNum 0)
    ∧ (Forall (λ e, JsString.startsWith VERSION e = false)
              (JsString.split "010" short_document) →
       version doc = VNum 2).
Proof.
  apply (metadata_defaults short_document). eexists. reflexivity.
Defined.

(** A line that spells the entry count as the PLS format does,
    [NumberOfEntries...], is not recognised: whatever follows, the callback
    leaves the state as it is. *)
Lemma standard_entry_count_ignored (st : State) (rest : string) :
  on_entry st ("NumberOfEntries" +:+ rest) = Normal st.
Proof. reflexivity. Qed.

(** X7: the only lines that can change [numberofentries] are those that
    start with [Numberofentries] in exactly this spelling; in particular a
    line that starts with [NumberOfEntries], as the PLS format spells it,
    never changes it. *)
Theorem entry_count_only_exact_spelling (st st' : State) (entry : string) :
  on_entry st entry = Normal st' →
  numberofentries (pls st') ≠ numberofentries (pls st) →
  (∃ rest, entry = "Numberofentries" +:+ rest)
  ∧ ∀ rest, entry ≠ "NumberOfEntries" +:+ rest.
Proof.
  intros Hrun Hchanged.
  destruct (on_entry_metadata st entry st' Hrun) as [Hn _].
  destruct (JsString.startsWith NUMBER_OF_ENTRIES entry) eqn:Hs; [|done].
  apply startsWith_spec in Hs as [rest ->].
  split; [by exists rest|]. intros rest'. discriminate.
Qed.

Lemma entry_count_only_exact_spelling_witness :
  (∃ rest, "Numberofentries=5" = "Numberofentries" +:+ rest)
  ∧ ∀ rest, "Numberofentries=5" ≠ "NumberOfEntries" +:+ rest.
Proof.
  apply (entry_count_only_exact_spelling initial_state
           {| pls := {| numberofentries := VStr "5"; playlistType := "pls";
                        tracks := []; version := VNum 2 |};
              createdTracks := ∅ |}
           "Numberofentries=5").
  - reflexivity.
  - discriminate.
Defined.

(** ** The file-name matcher *)

Section matcher_facts.
Local Arguments String.append !_ _ / : simpl nomatch.

Lemma matches_at_end_spec p s :
  matches_at_end p s = true ↔ ∃ a, s = a +:+ p.
Proof.
  induction s as [|c s IH]; cbn [matches_at_end].
  - rewrite orb_false_r, String.eqb_eq. split.
    + intros <-. by exists "".
    + intros [a Ha]. by destruct a.
  - rewrite orb_true_iff, String.eqb_eq, IH. split.
    + intros [<- | [a ->]]; [by exists "" | by exists (String c a)].
    + intros [[|c' a] Ha]; simpl in Ha; [by left|].
      injection Ha as -> ->. right. by exists a.
Qed.
End matcher_facts.

(** X8: [PLS_MATCHER] accepts exactly the strings that end in [pls]. *)
Theorem PLS_MATCHER_suffix (s : string) :
  PLS_MATCHER s = true ↔ ∃ a, s = a +:+ "pls".
Proof. apply matches_at_end_spec. Qed.

(** The test is case-sensitive, and anything after [pls], even a newline,
    makes it fail. *)
Example PLS_MATCHER_examples :
  PLS_MATCHER "http://radio.example/list.pls" = true
  ∧ PLS_MATCHER "pls" = true
  ∧ PLS_MATCHER "list.PLS" = false
  ∧ PLS_MATCHER "list.pls?x=1" = false
  ∧ PLS_MATCHER ("list.pls" +:+ String "010" "") = false
  ∧ PLS_MATCHER "" = false.
Proof. by vm_compute. Qed.

(** ** The shape of the tracks *)

Section shape_facts.
Implicit Types (st : State) (e name : string) (t : Track).

Lemma new_track_well_shaped : well_shaped new_track.
Proof.
  unfold well_shaped, new_track. split; [by eexists|]. split; [by left|].
  split; [by eexists|].
  intros name [x Hx]. rewrite !elem_of_cons.
  destruct (decide (name = "file")) as [-> | ?]; [tauto|].
  destruct (decide (name = "length")) as [-> | ?]; [tauto|].
  destruct (decide (name = "title")) as [-> | ?]; [tauto|].
  rewrite !lookup_insert_ne, lookup_singleton_ne in Hx by done. done.
Qed.

Lemma write_well_shaped name (v : string) t :
  name ∈ ["file"; "length"; "title"; ""] →
  well_shaped t → well_shaped (<[name := VStr v]> t).
Proof.
  intros Hname (Hf & Hl & Ht & Hdom). unfold well_shaped.
  split; [|split; [|split]].
  - destruct (decide (name = "file")) as [-> | ?];
      [rewrite lookup_insert_eq; eauto | by rewrite lookup_insert_ne].
  - destruct (decide (name = "length")) as [-> | ?];
      [rewrite lookup_insert_eq; eauto | by rewrite lookup_insert_ne].
  - destruct (decide (name = "title")) as [-> | ?];
      [rewrite lookup_insert_eq; eauto | by rewrite lookup_insert_ne].
  - intros name'. destruct (decide (name = name')) as [<- | ?]; [done|].
    rewrite lookup_insert_ne by done. apply Hdom.
Qed.

Lemma on_entry_well_shaped st e st' :
  Forall well_shaped (tracks (pls st)) → on_entry st e = Normal st' →
  Forall well_shaped (tracks (pls st')).
Proof.
  intros Hst Hrun. destruct (TRACK_PROPERTY_MATCHER e) eqn:Hm.
  - destruct (matcher_reads e Hm) as (name & k & v & Hr & Hn & Hk).
    rewrite (on_track_entry st e name k v Hm Hr Hn Hk) in Hrun.
    assert (Forall well_shaped (tracks (pls (appended st name k v)))) as Happ.
    { unfold appended. simpl. apply Forall_app. split; [done|].
      apply Forall_singleton.
      apply write_well_shaped; [done | apply new_track_well_shaped]. }
    destruct (createdTracks st !! k) as [[|n]|];
      [by injection Hrun as <- | | by injection Hrun as <-].
    destruct (tracks (pls st) !! S n) as [t|] eqn:Ht; [|done].
    injection Hrun as <-. unfold merged. simpl.
    apply Forall_insert; [done|]. apply write_well_shaped; [done|].
    exact (Forall_lookup_1 _ _ _ _ Hst Ht).
  - by destruct (not_track_entry_created st e st' Hm Hrun) as [_ ->].
Qed.

Lemma forEach_well_shaped entries st st' :
  Forall well_shaped (tracks (pls st)) → forEach entries st = Normal st' →
  Forall well_shaped (tracks (pls st')).
Proof.
  revert st. induction entries as [|e entries IH]; intros st Hst; simpl.
  - by intros [= <-].
  - destruct (on_entry st e) as [st1|] eqn:Hstep; simpl; [|done].
    apply IH. by eapply on_entry_well_shaped.
Qed.
End shape_facts.

(** X9: every track of every result has the properties [file], [length]
    and [title]; [file] and [title] hold strings, [length] holds the
    number [-1] or a string (never another number: the parser does not
    convert), and the only further property a track can carry is the one
    with the empty name. *)
Theorem tracks_well_shaped (rawPls : string) :
  ∃ doc, returned (plsParser rawPls) = Normal doc
         ∧ Forall well_shaped (tracks doc).
Proof.
  destruct (JsString.startsWith "[playlist]" rawPls) eqn:Hh.
  - destruct (valid_header_run rawPls Hh) as (st & Hrun & _ & Hret).
    exists (pls st). split; [done|].
    eapply forEach_well_shaped; [|exact Hrun]. constructor.
  - exists initial_pls. split; [|constructor].
    unfold plsParser, header_test. by rewrite Hh.
Qed.

(** ** How well-formed and bare entries are read *)

(** X10: a line [<Keyword><digit><more>=<value>], where [<more>] holds no
    [=], is read as a write of the property [file], [length] or [title]
    (the keyword in lower case) for the key [<digit><more>] (so letters
    after the digits belong to the key), and the value is everything after
    the first [=], kept verbatim, further [=] characters and a trailing
    carriage return included. *)
Theorem track_entry_read_verbatim (kw name : string) (d : ascii)
    (more v : string) :
  (kw, name) ∈ [("File", "file"); ("Length", "length"); ("Title", "title")] →
  JsString.is_digit d = true →
  ¬ occurs "=" more →
  TRACK_PROPERTY_MATCHER (kw +:+ String d more +:+ String "=" v) = true
  ∧ reads_as (kw +:+ String d more +:+ String "=" v) name (String d more) v.
Proof.
  intros Hkw Hd Hmore%indexOf_absent.
  assert (kw ∈ keywords ∧ Ember.camelize kw = name) as [Hin <-].
  { rewrite !elem_of_cons, elem_of_nil in Hkw.
    unfold keywords. rewrite !elem_of_cons.
    destruct Hkw as [[= -> ->] | [[= -> ->] | [[= -> ->] | []]]];
      (split; [auto 6 | reflexivity]). }
  split.
  - apply matcher_spec. by exists kw, d, (more +:+ String "=" v).
  - by apply reads_with_equals.
Qed.

Lemma track_entry_read_verbatim_witness :
  TRACK_PROPERTY_MATCHER "File1a=x=y" = true
  ∧ reads_as "File1a=x=y" "file" "1a" "x=y".
Proof.
  apply (track_entry_read_verbatim "File" "file" "1" "a" "x=y").
  - rewrite !elem_of_cons. left. reflexivity.
  - reflexivity.
  - apply indexOf_absent. reflexivity.
Defined.

(** X11: a line that is just a keyword and one digit, such as [File1], is
    read as a write of the property with the empty name, for the key that
    is the keyword itself, of the whole line: all such lines of one keyword
    share a key, whatever their digit. *)
Theorem bare_entry_read (kw : string) (d : ascii) :
  kw ∈ ["File"; "Length"; "Title"] →
  JsString.is_digit d = true →
  TRACK_PROPERTY_MATCHER (kw +:+ String d "") = true
  ∧ reads_as (kw +:+ String d "") "" kw (kw +:+ String d "").
Proof.
  intros Hkw Hd. split.
  - apply matcher_spec. by exists kw, d, "".
  - by apply reads_bare.
Qed.

Lemma bare_entry_read_witness :
  TRACK_PROPERTY_MATCHER "Title7" = true
  ∧ reads_as "Title7" "" "Title" "Title7".
Proof.
  apply (bare_entry_read "Title" "7").
  - rewrite !elem_of_cons. right. right. left. reflexivity.
  - reflexivity.
Defined.

(** ** Keys first met after another track: merging works *)

Section later_key_facts.
Implicit Types (st : State) (e k name v : string) (t : Track).

Lemma is_entry_of_spec k e :
  is_entry_of k e = true
  ↔ TRACK_PROPERTY_MATCHER e = true ∧ existingTrackKey (entry_key e) = k.
Proof. unfold is_entry_of. by rewrite andb_true_iff, String.eqb_eq. Qed.

(** A track-property entry leaves at least one track behind. *)
Lemma track_entry_leaves_track st e st' :
  TRACK_PROPERTY_MATCHER e = true → on_entry st e = Normal st' →
  tracks (pls st') ≠ [].
Proof.
  intros Hm Hrun.
  destruct (matcher_reads e Hm) as (name & k & v & Hr & Hn & Hk).
  rewrite (on_track_entry st e name k v Hm Hr Hn Hk) in Hrun.
  assert (tracks (pls (appended st name k v)) ≠ []) as Happ.
  { unfold appended. simpl. by destruct (tracks (pls st)). }
  destruct (createdTracks st !! k) as [[|n]|];
    [by injection Hrun as <- | | by injection Hrun as <-].
  destruct (tracks (pls st) !! S n) as [t|] eqn:Ht; [|done].
  injection Hrun as <-. unfold merged. simpl.
  intros Hnil. apply (f_equal length) in Hnil.
  rewrite length_insert in Hnil. apply lookup_lt_Some in Ht. simpl in Hnil. lia.
Qed.

Lemma on_entry_tracks_grow st e st' :
  on_entry st e = Normal st' →
  length (tracks (pls st)) ≤ length (tracks (pls st')).
Proof.
  intros Hrun. destruct (TRACK_PROPERTY_MATCHER e) eqn:Hm.
  - destruct (matcher_reads e Hm) as (name & k & v & Hr & Hn & Hk).
    rewrite (on_track_entry st e name k v Hm Hr Hn Hk) in Hrun.
    assert (length (tracks (pls st))
            ≤ length (tracks (pls (appended st name k v)))) as Happ.
    { unfold appended. simpl. rewrite length_app. lia. }
    destruct (createdTracks st !! k) as [[|n]|];
      [by injection Hrun as <- | | by injection Hrun as <-].
    destruct (tracks (pls st) !! S n) as [t|]; [|done].
    injection Hrun as <-. unfold merged. simpl. by rewrite length_insert.
  - by destruct (not_track_entry_created st e st' Hm Hrun) as [_ ->].
Qed.

Lemma forEach_tracks_grow entries st st' :
  forEach entries st = Normal st' →
  length (tracks (pls st)) ≤ length (tracks (pls st')).
Proof.
  revert st. induction entries as [|e entries IH]; intros st; simpl.
  - by intros [= <-].
  - destruct (on_entry st e) as [st1|] eqn:Hstep; simpl; [|done].
    intros Hrun%IH. apply on_entry_tracks_grow in Hstep. lia.
Qed.

Lemma some_key_some_track entries st st' :
  entry_keys entries ≠ [] → forEach entries st = Normal st' →
  tracks (pls st') ≠ [].
Proof.
  revert st. induction entries as [|e entries IH]; intros st; simpl; [done|].
  destruct (on_entry st e) as [st1|] eqn:Hstep; simpl; [|done].
  destruct (TRACK_PROPERTY_MATCHER e) eqn:Hm; [|by apply IH].
  intros _ Hrun%forEach_tracks_grow.
  pose proof (track_entry_leaves_track st e st1 Hm Hstep) as Hne.
  destruct (tracks (pls st1)); [done|].
  destruct (tracks (pls st')); [simpl in Hrun; lia | done].
Qed.

(** Once key [k] owns a position [p >= 1] that holds [t], the entries of
    key [k] are written into that track, in order, and no other entry
    touches it. *)
Lemma forEach_merges entries st st' k p t :
  owns st k p → p ≠ 0 →
  createdTracks st !! k = Some p →
  tracks (pls st) !! p = Some t →
  forEach entries st = Normal st' →
  tracks (pls st') !! p = Some (merge_entries k t entries).
Proof.
  unfold merge_entries.
  revert st t. induction entries as [|e entries IH];
    intros st t Hown Hp Hpos Ht; simpl.
  - by intros [= <-].
  - destruct (on_entry st e) as [st1|] eqn:Hstep; simpl; [|done].
    destruct (is_entry_of k e) eqn:He.
    + apply is_entry_of_spec in He as [Hm Hkey].
      destruct (matcher_reads e Hm) as (name & k' & v & Hr & Hn & Hk).
      pose proof Hr as (Hname & Hkey' & Hval).
      rewrite Hkey in Hkey'. subst k'.
      rewrite (on_track_entry st e name k v Hm Hr Hn Hk), Hpos in Hstep.
      destruct p as [|n]; [done|]. rewrite Ht in Hstep.
      injection Hstep as <-.
      destruct Hown as (Hvalid & Hlt & Honly).
      apply IH; [|done|done|].
      * unfold owns, merged, positions_valid. simpl.
        rewrite length_insert. done.
      * unfold merged, write_entry. simpl.
        rewrite Hname, Hval. by apply list_lookup_insert_eq.
    + assert (TRACK_PROPERTY_MATCHER e = true →
              existingTrackKey (entry_key e) ≠ k) as Hne.
      { intros Hm Hkey.
        assert (is_entry_of k e = true) by (by apply is_entry_of_spec).
        congruence. }
      destruct (on_entry_keeps_track st e st1 k p Hown Hne Hstep)
        as [Hown1 Hsame].
      apply IH; [done | done | | by rewrite Hsame].
      rewrite (on_entry_other_keys st e st1 k Hstep); [done|].
      intros Hm Heq. by apply (Hne Hm).
Qed.
End later_key_facts.

(** X12: take a document with a valid header and a track-property line
    whose key occurs on no earlier line but comes after some other
    track-property line.  Then that key has one track, at the position
    where this line appended it, and the track holds the defaults
    overwritten, in document order, by this line and by every later line
    of the same key: for each property the last line wins. *)
Theorem later_key_merged (rawPls : string) (before after : list string)
    (e k : string) :
  (∃ rest, rawPls = "[playlist]" +:+ rest) →
  JsString.split "010" rawPls = before ++ e :: after →
  TRACK_PROPERTY_MATCHER e = true →
  existingTrackKey (entry_key e) = k →
  k ∉ entry_keys before →
  entry_keys before ≠ [] →
  ∃ st doc,
    forEach before initial_state = Normal st
    ∧ returned (plsParser rawPls) = Normal doc
    ∧ tracks doc !! length (tracks (pls st))
      = Some (merge_entries k new_track (e :: after)).
Proof.
  intros Hh%startsWith_spec Hsplit Hm Hkey Hfirst Hsome.
  assert (∀ e', e' ∈ before → TRACK_PROPERTY_MATCHER e' = true →
                existingTrackKey (entry_key e') ≠ k) as Hbefore.
  { clear -Hfirst. induction before as [|e0 before IH]; intros e' He' Hm' Heq.
    { by apply elem_of_nil in He'. }
    simpl in Hfirst. apply elem_of_cons in He' as [-> | He'].
    - rewrite Hm', Heq in Hfirst. apply Hfirst. by left.
    - apply (IH) with (e' := e'); [|done..].
      destruct (TRACK_PROPERTY_MATCHER e0); [|done].
      intros Hin. apply Hfirst. by right. }
  destruct (forEach_valid before initial_state initial_valid)
    as (st1 & Hrun1 & Hvalid1).
  pose proof (forEach_other_keys before initial_state st1 k Hbefore Hrun1)
    as Hfresh.
  change (createdTracks initial_state !! k) with (@None nat) in Hfresh.
  pose proof (some_key_some_track before initial_state st1 Hsome Hrun1) as Hne.
  destruct (matcher_reads e Hm) as (name & k' & v & Hr & Hn & Hk).
  pose proof Hr as (Hname & Hkey' & Hval). rewrite Hkey in Hkey'. subst k'.
  assert (on_entry st1 e = Normal (appended st1 name k v)) as Hstep.
  { by rewrite (on_track_entry st1 e name k v Hm Hr Hn Hk), Hfresh. }
  set (p := length (tracks (pls st1))).
  assert (p ≠ 0) as Hp by (unfold p; by destruct (tracks (pls st1))).
  assert (owns (appended st1 name k v) k p) as Hown.
  { destruct (on_entry_valid st1 e Hvalid1) as (st2 & Hrun2 & Hvalid2).
    rewrite Hstep in Hrun2. injection Hrun2 as <-.
    split; [done|]. unfold appended. simpl. rewrite length_app. simpl.
    split; [unfold p; lia|].
    intros k' i. destruct (decide (k = k')) as [<- | Hne']; [done|].
    rewrite lookup_insert_ne by done. intros Hpos%Hvalid1 ->.
    unfold p in *. lia. }
  destruct (forEach_valid after (appended st1 name k v) (proj1 Hown))
    as (st3 & Hrun3 & _).
  exists st1, (pls st3). split; [done|]. split.
  - unfold plsParser, header_test. rewrite Hh. simpl.
    rewrite plsParts_split, Hsplit, forEach_app, Hrun1. simpl.
    rewrite Hstep. simpl. by rewrite Hrun3.
  - fold p.
    rewrite (forEach_merges after (appended st1 name k v) st3 k p
               (<[name := VStr v]> new_track) Hown Hp); [| | |done].
    + unfold merge_entries. simpl.
      assert (is_entry_of k e = true) as -> by (by apply is_entry_of_spec).
      unfold write_entry. by rewrite Hname, Hval.
    + unfold appended. simpl. by rewrite lookup_insert_eq.
    + unfold appended. simpl. by rewrite list_lookup_middle.
Qed.

Lemma later_key_merged_witness :
  ∃ st doc,
    forEach ["[playlist]"; "File1=track1.mp3"; "Title1=Song One";
             "Length1=180"] initial_state = Normal st
    ∧ returned (plsParser sample_document) = Normal doc
    ∧ tracks doc !! length (tracks (pls st))
      = Some (merge_entries "2" new_track
                ["File2=track2.mp3"; "NumberOfEntries=2"; "Version=2"]).
Proof.
  apply (later_key_merged sample_document
           ["[playlist]"; "File1=track1.mp3"; "Title1=Song One"; "Length1=180"]
           ["NumberOfEntries=2"; "Version=2"] "File2=track2.mp3" "2").
  - eexists. reflexivity.
  - reflexivity.
  - reflexivity.
  - reflexivity.
  - apply (bool_decide_unpack _). by vm_compute.
  - by vm_compute.
Defined.

(** Two keys, each with three lines: the second key has one track with the
    last value of each property. *)
Example merge_entries_example :
  merge_entries "2" new_track
    ["File2=a.mp3"; "Title1=x"; "Title2=t"; "File2=b.mp3"; "Length2=9"]
  = {[ "file" := VStr "b.mp3"; "length" := VStr "9"; "title" := VStr "t" ]}.
Proof. by vm_compute. Qed.

(** ** How many tracks a document gives *)

Section count_facts.
Implicit Types (st : State) (e k : string).
Local Set Warnings "-clear-no-such-hyp".

Lemma bool_decide_cons_ne k1 k (ks : list string) :
  k ≠ k1 → bool_decide (k1 ∈ k :: ks) = bool_decide (k1 ∈ ks).
Proof.
  intros Hne. apply bool_decide_ext. rewrite elem_of_cons. naive_solver.
Qed.

(** The three things a track-property entry of key [k] can do. *)
Lemma track_entry_cases st e st' :
  TRACK_PROPERTY_MATCHER e = true → on_entry st e = Normal st' →
  let k := existingTrackKey (entry_key e) in
  (* merged in place *)
  ((∃ n, createdTracks st !! k = Some (S n))
   ∧ createdTracks st' = createdTracks st
   ∧ length (tracks (pls st')) = length (tracks (pls st)))
  (* or appended *)
  ∨ ((createdTracks st !! k = None ∨ createdTracks st !! k = Some 0)
     ∧ createdTracks st' = <[k := length (tracks (pls st))]> (createdTracks st)
     ∧ length (tracks (pls st')) = S (length (tracks (pls st)))).
Proof.
  intros Hm Hrun.
  destruct (matcher_reads e Hm) as (name & k & v & Hr & Hn & Hk).
  rewrite (on_track_entry st e name k v Hm Hr Hn Hk) in Hrun.
  destruct Hr as (_ & <- & _). simpl.
  assert (length (tracks (pls (appended st name (existingTrackKey (entry_key e)) v)))
          = S (length (tracks (pls st)))) as Hlen.
  { unfold appended. simpl. rewrite length_app. simpl. lia. }
  destruct (createdTracks st !! existingTrackKey (entry_key e))
    as [[|n]|] eqn:Hpos.
  - injection Hrun as <-. right. auto.
  - destruct (tracks (pls st) !! S n) as [t|]; [|done].
    injection Hrun as <-. left. split; [by eexists|].
    unfold merged. simpl. by rewrite length_insert.
  - injection Hrun as <-. right. auto.
Qed.

Lemma run_zero_abandoned entries st st' :
  zero_abandoned st → forEach entries st = Normal st' →
  zero_abandoned st'
  ∧ dom (createdTracks st')
    = dom (createdTracks st) ∪ list_to_set (entry_keys entries).
Proof.
  revert st. induction entries as [|e entries IH]; intros st Hst; cbn [forEach entry_keys].
  - intros [= <-]. split; [done|]. set_solver.
  - destruct (on_entry st e) as [st1|] eqn:Hstep; cbn [bind]; [|done].
    intros Hrun. destruct Hst as [Hzero Hlen].
    destruct (TRACK_PROPERTY_MATCHER e) eqn:Hm.
    + destruct (track_entry_cases st e st1 Hm Hstep)
        as [([n Hpos] & Hct & Hl) | ([Hpos | Hpos] & Hct & Hl)].
      * destruct (IH st1) as [Hz Hdom]; [|done|].
        { split; rewrite ?Hct, ?Hl; done. }
        split; [done|]. rewrite Hdom, Hct.
        assert (existingTrackKey (entry_key e) ∈ dom (createdTracks st))
          by (apply elem_of_dom; eauto).
        set_solver.
      * destruct (IH st1) as [Hz Hdom]; [|done|].
        { split.
          - intros k. rewrite Hct.
            destruct (decide (existingTrackKey (entry_key e) = k)) as [<- | ?].
            + rewrite lookup_insert_eq, Hlen. done.
            + rewrite lookup_insert_ne by done. apply Hzero.
          - rewrite Hl, Hct, map_size_insert_None by done. by rewrite Hlen. }
        split; [done|]. rewrite Hdom, Hct, dom_insert_L. set_solver.
      * by apply Hzero in Hpos.
    + destruct (not_track_entry_created st e st1 Hm Hstep) as [Hct Ht].
      destruct (IH st1) as [Hz Hdom]; [|done|].
      { split; rewrite ?Hct, ?Ht; done. }
      split; [done|]. by rewrite Hdom, Hct.
Qed.

Lemma run_first_at_zero entries st st' k1 :
  first_at_zero st k1 → forEach entries st = Normal st' →
  dom (createdTracks st')
  = dom (createdTracks st) ∪ list_to_set (entry_keys entries)
  ∧ if bool_decide (k1 ∈ entry_keys entries)
    then zero_abandoned st' else first_at_zero st' k1.
Proof.
  revert st. induction entries as [|e entries IH]; intros st Hst; cbn [forEach entry_keys].
  - intros [= <-]. split; [set_solver|].
    case_bool_decide as Hin; [by apply elem_of_nil in Hin | done].
  - destruct (on_entry st e) as [st1|] eqn:Hstep; cbn [bind]; [|done].
    intros Hrun. pose proof Hst as (Hk1 & Honly & Hlen).
    assert (size (createdTracks st) ≠ 0) as Hsize.
    { apply map_size_ne_0_lookup. eauto. }
    destruct (TRACK_PROPERTY_MATCHER e) eqn:Hm.
    + set (k := existingTrackKey (entry_key e)) in *.
      destruct (track_entry_cases st e st1 Hm Hstep)
        as [([n Hpos] & Hct & Hl) | (Hpos & Hct & Hl)]; fold k in Hpos, Hct.
      * (* merged: [k] is not the first key *)
        assert (k ≠ k1) as Hne by (intros ->; congruence).
        destruct (IH st1) as [Hdom Hphase]; [|done|].
        { unfold first_at_zero. rewrite Hct, Hl. done. }
        split.
        -- rewrite Hdom, Hct.
           assert (k ∈ dom (createdTracks st)) by (apply elem_of_dom; eauto).
           set_solver.
        -- by rewrite bool_decide_cons_ne.
      * destruct (decide (k = k1)) as [Heq | Hne].
        -- (* the first key again: position 0 is abandoned *)
           destruct (run_zero_abandoned entries st1 st') as [Hz Hdom]; [|done|].
           { split.
             - intros k'. rewrite Hct.
               destruct (decide (k = k')) as [<- | Hne'].
               + rewrite lookup_insert_eq, Hlen. intros [= ?]. done.
               + rewrite lookup_insert_ne by done. intros Hz%Honly. congruence.
             - rewrite Hl, Hct, Heq, map_size_insert_Some by eauto.
               by rewrite Hlen. }
           split.
           ++ rewrite Hdom, Hct, dom_insert_L. set_solver.
           ++ rewrite Heq, bool_decide_eq_true_2; [done | by left].
        -- (* a new key *)
           destruct Hpos as [Hpos | Hpos]; [|by apply Honly in Hpos].
           destruct (IH st1) as [Hdom Hphase]; [|done|].
           { unfold first_at_zero. rewrite Hct, Hl.
             rewrite lookup_insert_ne by done. split; [done|]. split.
             - intros k'. destruct (decide (k = k')) as [<- | Hne'].
               + rewrite lookup_insert_eq, Hlen. intros [= ?]. done.
               + rewrite lookup_insert_ne by done. apply Honly.
             - rewrite map_size_insert_None by done. by rewrite Hlen. }
           split.
           ++ rewrite Hdom, Hct, dom_insert_L. set_solver.
           ++ by rewrite bool_decide_cons_ne.
    + destruct (not_track_entry_created st e st1 Hm Hstep) as [Hct Ht].
      destruct (IH st1) as [Hdom Hphase]; [|done|].
      { unfold first_at_zero. rewrite Hct, Ht. done. }
      split; [|done]. by rewrite Hdom, Hct.
Qed.

Lemma run_no_track entries st st' :
  no_track st → forEach entries st = Normal st' →
  length (tracks (pls st'))
  = distinct (entry_keys entries) + first_key_again (entry_keys entries).
Proof.
  unfold distinct.
  revert st. induction entries as [|e entries IH]; intros st [Ht Hc]; cbn [forEach entry_keys].
  - intros [= <-]. by rewrite Ht.
  - destruct (on_entry st e) as [st1|] eqn:Hstep; cbn [bind]; [|done].
    intros Hrun. destruct (TRACK_PROPERTY_MATCHER e) eqn:Hm.
    + set (k := existingTrackKey (entry_key e)) in *.
      destruct (track_entry_cases st e st1 Hm Hstep)
        as [([n Hpos] & _) | (_ & Hct & Hl)]; [fold k in Hpos | fold k in Hct].
      { by rewrite Hc, lookup_empty in Hpos. }
      rewrite Hc, Ht in Hct. rewrite Ht in Hl. simpl in Hct, Hl.
      destruct (run_first_at_zero entries st1 st' k) as [Hdom Hphase];
        [|done|].
      { unfold first_at_zero. rewrite Hct, Hl. rewrite lookup_insert_eq.
        split; [done|]. split.
        - intros k'. destruct (decide (k = k')) as [<- | Hne]; [done|].
          by rewrite lookup_insert_ne, lookup_empty.
        - by rewrite insert_empty, map_size_singleton. }
      rewrite Hct, dom_insert_L, dom_empty_L in Hdom.
      assert ((list_to_set (k :: entry_keys entries) : gset string)
              = dom (createdTracks st')) as ->.
      { rewrite Hdom, list_to_set_cons. set_solver. }
      rewrite size_dom. unfold first_key_again.
      destruct (bool_decide (k ∈ entry_keys entries)).
      * destruct Hphase as [_ ->]. lia.
      * destruct Hphase as (_ & _ & ->). lia.
    + destruct (not_track_entry_created st e st1 Hm Hstep) as [Hct Ht1].
      apply (IH st1); [|done]. split; congruence.
Qed.
End count_facts.

(** X13: a document with a valid header gives as many tracks as its
    track-property lines have distinct keys, plus one more when the key of
    the first track-property line comes again on a later line. *)
Theorem track_count (rawPls : string) :
  (∃ rest, rawPls = "[playlist]" +:+ rest) →
  ∃ doc, returned (plsParser rawPls) = Normal doc
    ∧ length (tracks doc)
      = distinct (entry_keys (JsString.split "010" rawPls))
        + first_key_again (entry_keys (JsString.split "010" rawPls)).
Proof.
  intros Hh%startsWith_spec.
  destruct (valid_header_run rawPls Hh) as (st & Hrun & _ & Hret).
  exists (pls st). split; [done|].
  by apply (run_no_track _ initial_state).
Qed.

Lemma track_count_witness :
  ∃ doc, returned (plsParser sample_document) = Normal doc
    ∧ length (tracks doc)
      = distinct (entry_keys (JsString.split "010" sample_document))
        + first_key_again (entry_keys (JsString.split "010" sample_document)).
Proof. apply (track_count sample_document). eexists. reflexivity. Defined.

Example sample_document_counts :
  entry_keys (JsString.split "010" sample_document) = ["1"; "1"; "1"; "2"]
  ∧ distinct (entry_keys (JsString.split "010" sample_document)) = 2
  ∧ first_key_again (entry_keys (JsString.split "010" sample_document)) = 1.
Proof. by vm_compute. Qed.

(** X14: a document with a valid header has no track exactly when none of
    its lines is a track-property line. *)
Theorem no_tracks_iff_no_track_line (rawPls : string) :
  (∃ rest, rawPls = "[playlist]" +:+ rest) →
  ∃ doc, returned (plsParser rawPls) = Normal doc
    ∧ (tracks doc = []
       ↔ Forall (λ e, TRACK_PROPERTY_MATCHER e = false)
                (JsString.split "010" rawPls)).
Proof.
  intros Hh%startsWith_spec.
  destruct (valid_header_run rawPls Hh) as (st & Hrun & _ & Hret).
  exists (pls st). split; [done|].
  assert (∀ entries, entry_keys entries = []
            ↔ Forall (λ e, TRACK_PROPERTY_MATCHER e = false) entries) as Hkeys.
  { induction entries as [|e entries IH]; simpl; [by split|].
    rewrite Forall_cons. destruct (TRACK_PROPERTY_MATCHER e); [|tauto].
    split; [done | intros [? _]; done]. }
  rewrite <- Hkeys. split.
  - intros Hnil.
    destruct (entry_keys (JsString.split "010" rawPls)) eqn:Hks; [done|].
    exfalso. eapply some_key_some_track; [|exact Hrun|exact Hnil].
    by rewrite Hks.
  - intros Hks.
    pose proof (run_no_track _ initial_state st (conj eq_refl eq_refl) Hrun)
      as Hlen.
    rewrite Hks in Hlen. by destruct (tracks (pls st)).
Qed.

Lemma no_tracks_iff_no_track_line_witness :
  ∃ doc, returned (plsParser "[playlist]") = Normal doc
    ∧ (tracks doc = []
       ↔ Forall (λ e, TRACK_PROPERTY_MATCHER e = false)
                (JsString.split "010" "[playlist]")).
Proof. apply (no_tracks_iff_no_track_line "[playlist]"). by exists "". Defined.

(** ** The two tracks of the first key *)

Section first_key_facts.
Implicit Types (st : State) (e k : string) (t : Track).

Lemma forEach_no_track_lines entries st st' :
  entry_keys entries = [] → forEach entries st = Normal st' →
  tracks (pls st') = tracks (pls st) ∧ createdTracks st' = createdTracks st.
Proof.
  revert st. induction entries as [|e entries IH]; intros st;
    cbn [forEach entry_keys].
  - by intros _ [= <-].
  - destruct (on_entry st e) as [st1|] eqn:Hstep; cbn [bind]; [|done].
    destruct (TRACK_PROPERTY_MATCHER e) eqn:Hm; [done|].
    intros Hks Hrun.
    destruct (not_track_entry_created st e st1 Hm Hstep) as [<- <-].
    by apply IH.
Qed.

Lemma not_in_entry_keys entries k :
  k ∉ entry_keys entries →
  ∀ e, e ∈ entries → TRACK_PROPERTY_MATCHER e = true →
       existingTrackKey (entry_key e) ≠ k.
Proof.
  induction entries as [|e0 entries IH]; intros Hk e He Hm Heq.
  { by apply elem_of_nil in He. }
  cbn [entry_keys] in Hk. apply elem_of_cons in He as [-> | He].
  - rewrite Hm, Heq in Hk. apply Hk. by left.
  - apply (IH) with (e := e); [|done..].
    destruct (TRACK_PROPERTY_MATCHER e0); [|done].
    intros Hin. apply Hk. by right.
Qed.

(** Nothing is ever written into an existing track at position [0]. *)
Lemma on_entry_keeps_first st e st' t :
  tracks (pls st) !! 0 = Some t → on_entry st e = Normal st' →
  tracks (pls st') !! 0 = Some t.
Proof.
  intros Ht Hrun. destruct (TRACK_PROPERTY_MATCHER e) eqn:Hm.
  - destruct (matcher_reads e Hm) as (name & k & v & Hr & Hn & Hk).
    rewrite (on_track_entry st e name k v Hm Hr Hn Hk) in Hrun.
    assert (tracks (pls (appended st name k v)) !! 0 = Some t) as Happ.
    { unfold appended. simpl. rewrite lookup_app_l; [done|].
      by apply lookup_lt_Some in Ht. }
    destruct (createdTracks st !! k) as [[|n]|];
      [by injection Hrun as <- | | by injection Hrun as <-].
    destruct (tracks (pls st) !! S n); [|done].
    injection Hrun as <-. unfold merged. simpl.
    by rewrite list_lookup_insert_ne.
  - by destruct (not_track_entry_created st e st' Hm Hrun) as [_ ->].
Qed.

Lemma forEach_keeps_first entries st st' t :
  tracks (pls st) !! 0 = Some t → forEach entries st = Normal st' →
  tracks (pls st') !! 0 = Some t.
Proof.
  revert st. induction entries as [|e entries IH]; intros st Ht; simpl.
  - by intros [= <-].
  - destruct (on_entry st e) as [st1|] eqn:Hstep; simpl; [|done].
    apply IH. by eapply on_entry_keeps_first.
Qed.

(** The first track-property entry of a run. *)
Lemma first_track_entry before e st :
  entry_keys before = [] → TRACK_PROPERTY_MATCHER e = true →
  forEach before initial_state = Normal st →
  ∃ name v,
    on_entry st e = Normal (appended st name (existingTrackKey (entry_key e)) v)
    ∧ tracks (pls st) = []
    ∧ <[name := VStr v]> new_track = write_entry new_track e.
Proof.
  intros Hks Hm Hrun.
  destruct (forEach_no_track_lines before initial_state st Hks Hrun)
    as [Ht Hc].
  destruct (matcher_reads e Hm) as (name & k & v & Hr & Hn & Hk).
  pose proof Hr as (Hname & Hkey & Hval). subst k.
  exists name, v. split; [|split; [done|]].
  - rewrite (on_track_entry st e name _ v Hm Hr Hn Hk), Hc.
    by change (createdTracks initial_state !! existingTrackKey (entry_key e))
      with (@None nat).
  - unfold write_entry. by rewrite Hname, Hval.
Qed.
End first_key_facts.

(** X15: in the result of a document with a valid header, the track at
    position [0] is the defaults with the one property of the first
    track-property line written into it: no later line, of whatever key, is
    ever merged into the first track. *)
Theorem first_track_single_write (rawPls : string) (before after : list string)
    (e : string) :
  (∃ rest, rawPls = "[playlist]" +:+ rest) →
  JsString.split "010" rawPls = before ++ e :: after →
  entry_keys before = [] →
  TRACK_PROPERTY_MATCHER e = true →
  ∃ doc, returned (plsParser rawPls) = Normal doc
         ∧ tracks doc !! 0 = Some (write_entry new_track e).
Proof.
  intros Hh%startsWith_spec Hsplit Hks Hm.
  destruct (valid_header_run rawPls Hh) as (st & Hrun & _ & Hret).
  exists (pls st). split; [done|].
  rewrite Hsplit, forEach_app in Hrun.
  destruct (forEach before initial_state) as [st0|] eqn:Hrun0; [|done].
  cbn [bind forEach] in Hrun.
  destruct (first_track_entry before e st0 Hks Hm Hrun0)
    as (name & v & Hstep & Hnil & Hwrite).
  rewrite Hstep in Hrun. cbn [bind] in Hrun.
  eapply forEach_keeps_first; [|exact Hrun].
  unfold appended. simpl. by rewrite Hnil, Hwrite.
Qed.

Lemma first_track_single_write_witness :
  ∃ doc, returned (plsParser sample_document) = Normal doc
         ∧ tracks doc !! 0 = Some (write_entry new_track "File1=track1.mp3").
Proof.
  apply (first_track_single_write sample_document ["[playlist]"]
           ["Title1=Song One"; "Length1=180"; "File2=track2.mp3";
            "NumberOfEntries=2"; "Version=2"] "File1=track1.mp3").
  - eexists. reflexivity.
  - reflexivity.
  - reflexivity.
  - reflexivity.
Defined.

(** X16: when the key of the first track-property line comes again, its
    second line starts a second track at the position where it is
    appended, and that second track holds the defaults overwritten, in
    document order, by the second line and every later line of that key. *)
Theorem first_key_second_track (rawPls : string)
    (before between after : list string) (e1 e2 k : string) :
  (∃ rest, rawPls = "[playlist]" +:+ rest) →
  JsString.split "010" rawPls = before ++ e1 :: between ++ e2 :: after →
  entry_keys before = [] →
  TRACK_PROPERTY_MATCHER e1 = true → existingTrackKey (entry_key e1) = k →
  k ∉ entry_keys between →
  TRACK_PROPERTY_MATCHER e2 = true → existingTrackKey (entry_key e2) = k →
  ∃ st doc,
    forEach (before ++ e1 :: between) initial_state = Normal st
    ∧ returned (plsParser rawPls) = Normal doc
    ∧ 0 < length (tracks (pls st))
    ∧ tracks doc !! length (tracks (pls st))
      = Some (merge_entries k new_track (e2 :: after)).
Proof.
  intros Hh%startsWith_spec Hsplit Hks Hm1 Hk1 Hbetween Hm2 Hk2.
  destruct (forEach_valid before initial_state initial_valid)
    as (st0 & Hrun0 & Hvalid0).
  destruct (first_track_entry before e1 st0 Hks Hm1 Hrun0)
    as (name1 & v1 & Hstep1 & Hnil & _).
  rewrite Hk1 in Hstep1. set (st1 := appended st0 name1 k v1) in *.
  assert (positions_valid st1) as Hvalid1.
  { destruct (on_entry_valid st0 e1 Hvalid0) as (st1' & Hrun1' & Hv).
    rewrite Hstep1 in Hrun1'. by injection Hrun1' as <-. }
  destruct (forEach_valid between st1 Hvalid1) as (st2 & Hrun2 & Hvalid2).
  pose proof (forEach_other_keys between st1 st2 k
                (not_in_entry_keys between k Hbetween) Hrun2) as Hpos2.
  assert (createdTracks st1 !! k = Some 0) as Hpos1
    by (unfold st1, appended; simpl; by rewrite lookup_insert_eq, Hnil).
  rewrite Hpos1 in Hpos2.
  pose proof (forEach_tracks_grow between st1 st2 Hrun2) as Hgrow.
  assert (length (tracks (pls st1)) = 1) as Hlen1
    by (unfold st1, appended; simpl; by rewrite Hnil).
  destruct (matcher_reads e2 Hm2) as (name2 & k' & v2 & Hr2 & Hn2 & Hkk).
  pose proof Hr2 as (Hname2 & Hkey2 & Hval2). rewrite Hk2 in Hkey2. subst k'.
  assert (on_entry st2 e2 = Normal (appended st2 name2 k v2)) as Hstep2.
  { by rewrite (on_track_entry st2 e2 name2 k v2 Hm2 Hr2 Hn2 Hkk), Hpos2. }
  set (p := length (tracks (pls st2))).
  assert (p ≠ 0) as Hp by (unfold p; lia).
  assert (owns (appended st2 name2 k v2) k p) as Hown.
  { destruct (on_entry_valid st2 e2 Hvalid2) as (st3' & Hrun3' & Hvalid3).
    rewrite Hstep2 in Hrun3'. injection Hrun3' as <-.
    split; [done|]. unfold appended. simpl. rewrite length_app. simpl.
    split; [unfold p; lia|].
    intros k' i. destruct (decide (k = k')) as [<- | Hne']; [done|].
    rewrite lookup_insert_ne by done. intros Hpos%Hvalid2 ->.
    unfold p in *. lia. }
  destruct (forEach_valid after (appended st2 name2 k v2) (proj1 Hown))
    as (st4 & Hrun4 & _).
  exists st2, (pls st4).
  assert (forEach (before ++ e1 :: between) initial_state = Normal st2) as Hrun.
  { rewrite forEach_app, Hrun0. cbn [bind forEach]. rewrite Hstep1.
    cbn [bind]. done. }
  split; [done|]. split; [|split; [fold p; lia|]].
  - unfold plsParser, header_test. rewrite Hh. simpl.
    rewrite plsParts_split, Hsplit.
    replace (before ++ e1 :: between ++ e2 :: after)
      with ((before ++ e1 :: between) ++ e2 :: after)
      by (by rewrite <- app_assoc).
    rewrite forEach_app, Hrun. cbn [bind forEach]. rewrite Hstep2.
    cbn [bind]. by rewrite Hrun4.
  - fold p.
    rewrite (forEach_merges after (appended st2 name2 k v2) st4 k p
               (<[name2 := VStr v2]> new_track) Hown Hp); [| | |done].
    + unfold merge_entries. simpl.
      assert (is_entry_of k e2 = true) as -> by (by apply is_entry_of_spec).
      unfold write_entry. by rewrite Hname2, Hval2.
    + unfold appended. simpl. by rewrite lookup_insert_eq.
    + unfold appended. simpl. by rewrite list_lookup_middle.
Qed.

Lemma first_key_second_track_witness :
  ∃ st doc,
    forEach (["[playlist]"] ++ "File1=track1.mp3" :: []) initial_state
    = Normal st
    ∧ returned (plsParser sample_document) = Normal doc
    ∧ 0 < length (tracks (pls st))
    ∧ tracks doc !! length (tracks (pls st))
      = Some (merge_entries "1" new_track
                ["Title1=Song One"; "Length1=180"; "File2=track2.mp3";
                 "NumberOfEntries=2"; "Version=2"]).
Proof.
  apply (first_key_second_track sample_document ["[playlist]"] []
           ["Length1=180"; "File2=track2.mp3"; "NumberOfEntries=2"; "Version=2"]
           "File1=track1.mp3" "Title1=Song One" "1").
  - eexists. reflexivity.
  - reflexivity.
  - reflexivity.
  - reflexivity.
  - reflexivity.
  - apply (bool_decide_unpack _). by vm_compute.
  - reflexivity.
  - reflexivity.
Defined.

(** ** Lines the callback does not recognise *)

(** X17: the lines that match none of the three rules (blank lines,
    comments, the header, a [NumberOfEntries] line) can be taken out of the
    entries without changing what the iteration returns, wherever they
    stand. *)
Theorem unrecognised_lines_removable (entries : list string) (st : State) :
  forEach (filter (λ e, recognised e = true) entries) st = forEach entries st.
Proof.
  revert st. induction entries as [|e entries IH]; intros st; [done|].
  rewrite filter_cons. cbn [forEach]. case_decide as He.
  - cbn [forEach]. destruct (on_entry st e); cbn [bind]; [apply IH | done].
  - apply not_true_is_false in He. unfold recognised in He.
    apply orb_false_elim in He as [He Hv].
    apply orb_false_elim in He as [Hm Hn].
    assert (on_entry st e = Normal st) as ->
      by (unfold on_entry; by rewrite Hm, Hn, Hv).
    cbn [bind]. apply IH.
Qed.

(** ** A suffix that only a Title line bears *)

(** C8, as stated, fails.  In [cut_key_document] the suffix [5] is written
    on one line only, [Title5=X] (the line [File55] bears the suffix
    [55]), yet the callback files [File55] under the key [5] and merges it
    into the track of [Title5=X]: the result holds
    [{file: 'File55', length: -1, title: 'X'}] and no track
    [{file: '', length: -1, title: 'X'}]. *)
Lemma lone_written_suffix_merged :
  filter (λ e, TRACK_PROPERTY_MATCHER e = true ∧ written_suffix e = "5")
         (JsString.split "010" cut_key_document)
  = ["Title5=X"]
  ∧ written_suffix "File55" = "55"
  ∧ map_completion tracks (returned (plsParser cut_key_document))
    = Normal
        [ {[ "file" := VStr "a.mp3"; "length" := VNum (-1);
             "title" := VStr "" ]};
          {[ "file" := VStr "File55"; "length" := VNum (-1);
             "title" := VStr "X" ]} ]
  ∧ ({[ "file" := VStr ""; "length" := VNum (-1); "title" := VStr "X" ]} : Track)
    ∉ [ ({[ "file" := VStr "a.mp3"; "length" := VNum (-1);
            "title" := VStr "" ]} : Track);
        {[ "file" := VStr "File55"; "length" := VNum (-1);
           "title" := VStr "X" ]} ].
Proof.
  split; [by vm_compute|]. split; [reflexivity|]. split; [by vm_compute|].
  rewrite !elem_of_cons, elem_of_nil.
  intros [H | [H | []]];
    apply (f_equal (λ t : Track, t !! "file")) in H;
    vm_compute in H; discriminate H.
Qed.

(** The position is where the Title entry appends its track, which is not
    always the rank of its suffix: in [repeated_then_title_document] the
    suffix [5] is the second to appear, and its track is the third. *)
Example lone_title_after_repeated_first_key :
  map_completion tracks (returned (plsParser repeated_then_title_document))
  = Normal
      [ {[ "file" := VStr "a.mp3"; "length" := VNum (-1); "title" := VStr "" ]};
        {[ "file" := VStr ""; "length" := VNum (-1); "title" := VStr "b" ]};
        {[ "file" := VStr ""; "length" := VNum (-1); "title" := VStr "X" ]} ].
Proof. by vm_compute. Qed.

(** C8, amended: take an input with a valid header in which exactly one
    track-property line is filed under a given key (the index suffix as the
    callback computes it, from the key cut at the first [=], or cut by one
    character on a line without [=]), and let that line be
    [Title<key>=x].  Then the result holds the track
    [{file: '', length: -1, title: x}], placed after the tracks of all
    earlier lines; when the key of the first track-property line does not
    come again before the Title line, that position is the number of
    distinct keys of the earlier lines, that is, the rank of the key in
    order of first appearance. *)
Theorem lone_title_track (rawPls : string) (before after : list string)
    (d : ascii) (r x : string) :
  (∃ rest, rawPls = "[playlist]" +:+ rest) →
  JsString.split "010" rawPls
  = before ++ ("Title" +:+ String d r +:+ String "=" x) :: after →
  JsString.is_digit d = true →
  ¬ occurs "=" r →
  Forall (λ e, TRACK_PROPERTY_MATCHER e = true →
               existingTrackKey (entry_key e) ≠ String d r)
         (before ++ after) →
  ∃ st doc,
    forEach before initial_state = Normal st
    ∧ returned (plsParser rawPls) = Normal doc
    ∧ tracks doc !! length (tracks (pls st))
      = Some {[ "file" := VStr ""; "length" := VNum (-1); "title" := VStr x ]}
    ∧ (first_key_again (entry_keys before) = 0 →
       length (tracks (pls st)) = distinct (entry_keys before)).
Proof.
  intros Hhead Hsplit Hd Hr Hothers.
  destruct (title_only_track rawPls before after d r x Hhead Hsplit Hd Hr
              Hothers) as (st & doc & Hrun & Hret & Hlook).
  exists st, doc. split; [done|]. split; [done|]. split; [done|].
  intros Hagain.
  rewrite (run_no_track before initial_state st (conj eq_refl eq_refl) Hrun).
  rewrite Hagain. lia.
Qed.

Lemma lone_title_track_witness :
  ∃ st doc,
    forEach ["[playlist]"; "File1=a.mp3"] initial_state = Normal st
    ∧ returned (plsParser title_only_document) = Normal doc
    ∧ tracks doc !! length (tracks (pls st))
      = Some {[ "file" := VStr ""; "length" := VNum (-1); "title" := VStr "X" ]}
    ∧ (first_key_again (entry_keys ["[playlist]"; "File1=a.mp3"]) = 0 →
       length (tracks (pls st))
       = distinct (entry_keys ["[playlist]"; "File1=a.mp3"])).
Proof.
  apply (lone_title_track title_only_document
           ["[playlist]"; "File1=a.mp3"] ["File2=b.mp3"] "5" "" "X").
  - eexists. reflexivity.
  - reflexivity.
  - reflexivity.
  - apply indexOf_absent. reflexivity.
  - repeat constructor; by vm_compute.
Defined.
